(** * Flow validation utilities of the chatbot flow builder

    A shallow embedding of [src/utils/validation.ts] ([validateFlow],
    [canConnect], [hasFlowCycles]) together with the types of
    [src/types/index.ts] they operate on, and the properties the design
    document states about them; then the rest of that file
    ([validateNodeData], [generateNodeId], [generateEdgeId]), the node type
    table of [src/config/nodeTypes.ts] and the handlers of [src/App.tsx] and
    of the settings panel that call them, with properties read off the code.

    Modelling conventions.
    - A JavaScript string is a [string]: a sequence of code units, here the
      code units below 256.  [===] on strings is [String.eqb].
    - An optional field ([text?], [sourceHandle?], [targetHandle?]) is an
      [option]; [undefined] is [None].
    - An array is a [list]; [push] appends at the end, [filter], [some] and
      [find] scan from the front.
    - The object used as a dictionary in [hasFlowCycles] is a [gmap] of its
      own keys together with its prototype chain; the two [Set]s are
      [gset]s.  A call that throws ends in [Thrown].
    - [hasCycle] recurses on the graph, not on a datum: it takes a fuel
      argument, and [hasFlowCycles_ends] shows the fuel [hasFlowCycles]
      gives it is never used up.
    - The clock, the random number generator and React Flow ([addEdge], the
      projection of the drop point) are outside the code: their results are
      arguments of the functions that use them. *)

From Stdlib Require Import Ascii String DecimalNat DecimalString SpecFloat.
From stdpp Require Import base strings list gmap relations.

Local Open Scope string_scope.
Local Open Scope nat_scope.

#[local] Set Warnings "-clear-no-such-hyp,-register-all".

(** ** Data model ([src/types/index.ts]) *)

Inductive NodeType : Type := textMessage.

Record NodeData : Type := mkNodeData {
  label : string;
  text : option string;
  data_type : NodeType
}.

(** Canvas coordinates; no function below reads them. *)
Record Position : Type := mkPosition { pos_x : Z; pos_y : Z }.

Record CustomNode : Type := mkNode {
  id : string;
  type : NodeType;
  position : Position;
  data : NodeData
}.

Record CustomEdge : Type := mkEdge {
  edge_id : string;
  source : string;
  target : string;
  sourceHandle : option string;
  targetHandle : option string
}.

Record ValidationResult : Type := mkResult {
  isValid : bool;
  errors : list string
}.

(** ** JavaScript primitives used by the source *)

Module JS.

(** [a === b] on two values of type [string | undefined]. *)
Definition strictEq (a b : option string) : bool :=
  match a, b with
  | None, None => true
  | Some s, Some t => String.eqb s t
  | _, _ => false
  end.

(** White space and line terminators removed by [String.prototype.trim],
    among the code units below 256: TAB, LF, VT, FF, CR, SP, NBSP. *)
Definition isWhiteSpace (c : ascii) : bool :=
  let n := nat_of_ascii c in
  (Nat.leb 9 n && Nat.leb n 13) || Nat.eqb n 32 || Nat.eqb n 160.

Fixpoint trimStart (s : string) : string :=
  match s with
  | EmptyString => EmptyString
  | String c rest => if isWhiteSpace c then trimStart rest else s
  end.

Definition trimEnd (s : string) : string :=
  String.rev (trimStart (String.rev s)).

Definition trim (s : string) : string := trimEnd (trimStart s).

(** A non-negative integer interpolated in a template literal. *)
Definition numberToString (n : nat) : string :=
  NilEmpty.string_of_uint (Nat.to_uint n).

(** [Array.prototype.push], returning the updated array. *)
Definition push {A : Type} (arr : list A) (x : A) : list A := arr ++ [x].

Definition some {A : Type} (p : A → bool) (arr : list A) : bool :=
  existsb p arr.

Definition find {A : Type} (p : A → bool) (arr : list A) : option A :=
  List.find p arr.

(** Truthiness of the result of [find] on an array of objects. *)
Definition found {A : Type} (r : option A) : bool :=
  match r with Some _ => true | None => false end.

End JS.

(** ** [validateFlow] *)

Definition startingPointError (count : nat) : string :=
  "Flow validation failed: " +:+ JS.numberToString count +:+
  " nodes have empty target handles. " +:+
  "Only one node can be the starting point of the flow.".

Definition emptyTextError (count : nat) : string :=
  JS.numberToString count +:+ " node(s) have empty message text. " +:+
  "Please add text to all message nodes before saving.".

Definition isolatedNodesError (count : nat) : string :=
  JS.numberToString count +:+
  " nodes are completely isolated (no connections). " +:+
  "Please connect them to the flow or remove them.".

Definition hasIncoming (edges : list CustomEdge) (node : CustomNode) : bool :=
  JS.some (λ edge, String.eqb (target edge) (id node)) edges.

Definition hasOutgoing (edges : list CustomEdge) (node : CustomNode) : bool :=
  JS.some (λ edge, String.eqb (source edge) (id node)) edges.

(** [!node.data.text || node.data.text.trim() === '']: [undefined] and the
    empty string are the falsy values, and [||] evaluates its right operand
    only when the left one is [false]. *)
Definition hasEmptyText (node : CustomNode) : bool :=
  match text (data node) with
  | None => true
  | Some t => String.eqb t "" || String.eqb (JS.trim t) ""
  end.

Definition validateFlow (nodes : list CustomNode) (edges : list CustomEdge)
  : ValidationResult :=
  let errors0 : list string := [] in
  if Nat.leb (length nodes) 1 then
    {| isValid := true; errors := [] |}
  else
    let nodesWithoutIncomingConnections :=
      List.filter (λ node, negb (hasIncoming edges node)) nodes in
    let errors1 :=
      if Nat.ltb 1 (length nodesWithoutIncomingConnections)
      then JS.push errors0
             (startingPointError (length nodesWithoutIncomingConnections))
      else errors0 in
    let nodesWithEmptyText := List.filter hasEmptyText nodes in
    let errors2 :=
      if Nat.ltb 0 (length nodesWithEmptyText)
      then JS.push errors1 (emptyTextError (length nodesWithEmptyText))
      else errors1 in
    let isolatedNodes :=
      List.filter
        (λ node, negb (hasIncoming edges node) && negb (hasOutgoing edges node))
        nodes in
    let errors3 :=
      if Nat.ltb 1 (length isolatedNodes)
      then JS.push errors2 (isolatedNodesError (length isolatedNodes))
      else errors2 in
    {| isValid := Nat.eqb (length errors3) 0; errors := errors3 |}.

(** ** [canConnect] *)

Definition canConnect (sourceNodeId : string) (sourceHandle' : option string)
    (targetNodeId : string) (targetHandle' : option string)
    (edges : list CustomEdge) : bool :=
  if String.eqb sourceNodeId targetNodeId then false
  else
    let existingConnection :=
      JS.find (λ edge, String.eqb (source edge) sourceNodeId &&
                       JS.strictEq (sourceHandle edge) sourceHandle') edges in
    if JS.found existingConnection then false
    else
      let duplicateConnection :=
        JS.find (λ edge, String.eqb (source edge) sourceNodeId &&
                         String.eqb (target edge) targetNodeId &&
                         JS.strictEq (sourceHandle edge) sourceHandle' &&
                         JS.strictEq (targetHandle edge) targetHandle') edges in
      if JS.found duplicateConnection then false
      else true.

(** ** [hasFlowCycles]

    [adjacencyList] is a plain object used as a dictionary, so a key that
    the object does not own is looked up along its prototype chain.  The
    chain starts at [Object.prototype]; the assignment
    [adjacencyList['__proto__'] = []] does not add a key but makes that
    fresh array the prototype, after which the chain is the array,
    [Array.prototype], [Object.prototype]. *)

Inductive JSError : Type := TypeError.

(** How an evaluation ends: with a value, or with an exception thrown. *)
Inductive Completion (A : Type) : Type :=
  | Returned (a : A)
  | Thrown (e : JSError).

Arguments Returned {A} a.
Arguments Thrown {A} e.

(** The string-keyed members of the two built-in prototypes, apart from the
    accessor [__proto__] of [Object.prototype] and the [length] of
    [Array.prototype]; all of them are functions.  Which names there are
    depends on the edition of the language the runtime implements. *)
Record Runtime : Type := mkRuntime {
  objectPrototypeMembers : list string;
  arrayPrototypeMembers : list string
}.

(** The tables of ECMAScript 2023, Annex B included. *)
Definition standardRuntime : Runtime :=
  {| objectPrototypeMembers :=
       ["constructor"; "__defineGetter__"; "__defineSetter__";
        "hasOwnProperty"; "__lookupGetter__"; "__lookupSetter__";
        "isPrototypeOf"; "propertyIsEnumerable"; "toString"; "valueOf";
        "toLocaleString"];
     arrayPrototypeMembers :=
       ["at"; "concat"; "constructor"; "copyWithin"; "entries"; "every";
        "fill"; "filter"; "find"; "findIndex"; "findLast"; "findLastIndex";
        "flat"; "flatMap"; "forEach"; "includes"; "indexOf"; "join"; "keys";
        "lastIndexOf"; "map"; "pop"; "push"; "reduce"; "reduceRight";
        "reverse"; "shift"; "slice"; "some"; "sort"; "splice";
        "toLocaleString"; "toReversed"; "toSorted"; "toSpliced"; "toString";
        "unshift"; "values"; "with"] |}.

(** The dictionary object: the arrays stored under its own keys, and the
    array that has replaced its prototype, if one has ([None]: the
    prototype is still [Object.prototype]). *)
Record Dictionary : Type := mkDictionary {
  own : gmap string (list string);
  prototypeArray : option (list string)
}.

(** [{}] *)
Definition emptyObject : Dictionary :=
  {| own := ∅; prototypeArray := None |}.

(** What [adjacencyList[key]] can evaluate to. *)
Inductive Member : Type :=
  | OwnArray (items : list string)        (* the array under an own key *)
  | PrototypeArray (items : list string)  (* the array that is the prototype *)
  | ObjectPrototype                       (* [Object.prototype] itself *)
  | BuiltinFunction                       (* an inherited method *)
  | NumberValue (n : nat)                 (* the inherited [length] *)
  | StringValue (s : string)              (* an inherited array element *)
  | Undefined.

Definition isMember (key : string) (names : list string) : bool :=
  existsb (String.eqb key) names.

(** [items[key]] for a key that is the decimal numeral of an index, counted
    from [index] on. *)
Fixpoint arrayElement (key : string) (index : nat) (items : list string)
  : option string :=
  match items with
  | [] => None
  | item :: rest =>
      if String.eqb key (JS.numberToString index) then Some item
      else arrayElement key (S index) rest
  end.

(** [adjacencyList[key]]: an own key first; then [__proto__], the accessor
    that yields the prototype; then the prototype chain. *)
Definition getMember (rt : Runtime) (adjacencyList : Dictionary) (key : string)
  : Member :=
  match own adjacencyList !! key with
  | Some items => OwnArray items
  | None =>
      if String.eqb key "__proto__" then
        match prototypeArray adjacencyList with
        | Some items => PrototypeArray items
        | None => ObjectPrototype
        end
      else
        match prototypeArray adjacencyList with
        | Some items =>
            if String.eqb key "length" then NumberValue (length items)
            else
              match arrayElement key 0 items with
              | Some item => StringValue item
              | None =>
                  if isMember key (arrayPrototypeMembers rt)
                     || isMember key (objectPrototypeMembers rt)
                  then BuiltinFunction
                  else Undefined
              end
        | None =>
            if isMember key (objectPrototypeMembers rt) then BuiltinFunction
            else Undefined
        end
  end.

(** [adjacencyList[id] = []]: the inherited members are writable data
    properties, so the assignment adds an own key, except for [__proto__],
    whose setter replaces the prototype. *)
Definition assignEmptyArray (adjacencyList : Dictionary) (key : string)
  : Dictionary :=
  if String.eqb key "__proto__"
  then {| own := own adjacencyList; prototypeArray := Some [] |}
  else {| own := <[key := []]> (own adjacencyList);
          prototypeArray := prototypeArray adjacencyList |}.

(** [nodeIds.forEach(id => { adjacencyList[id] = []; })] *)
Definition initAdjacency (nodeIds : list string) : Dictionary :=
  foldl assignEmptyArray emptyObject nodeIds.

(** [if (adjacencyList[edge.source]) adjacencyList[edge.source].push(edge.target)]:
    arrays, objects and functions are truthy, 0 and the empty string are
    not; only an array has [push], and calling the [undefined] that any
    other truthy value has in its place throws. *)
Definition addEdge (rt : Runtime) (adjacencyList : Dictionary)
    (edge : CustomEdge) : Completion Dictionary :=
  match getMember rt adjacencyList (source edge) with
  | OwnArray targets =>
      Returned {| own := <[source edge := JS.push targets (target edge)]>
                           (own adjacencyList);
                  prototypeArray := prototypeArray adjacencyList |}
  | PrototypeArray targets =>
      Returned {| own := own adjacencyList;
                  prototypeArray := Some (JS.push targets (target edge)) |}
  | ObjectPrototype | BuiltinFunction => Thrown TypeError
  | NumberValue n =>
      if Nat.eqb n 0 then Returned adjacencyList else Thrown TypeError
  | StringValue s =>
      if String.eqb s "" then Returned adjacencyList else Thrown TypeError
  | Undefined => Returned adjacencyList
  end.

(** [edges.forEach(...)], left as soon as a call throws. *)
Fixpoint addEdges (rt : Runtime) (adjacencyList : Dictionary)
    (edges : list CustomEdge) : Completion Dictionary :=
  match edges with
  | [] => Returned adjacencyList
  | edge :: rest =>
      match addEdge rt adjacencyList edge with
      | Returned adjacencyList' => addEdges rt adjacencyList' rest
      | Thrown e => Thrown e
      end
  end.

Definition buildAdjacency (rt : Runtime) (nodeIds : list string)
    (edges : list CustomEdge) : Completion Dictionary :=
  addEdges rt (initAdjacency nodeIds) edges.

(** The characters [for...of] yields from a string, each a string. *)
Fixpoint characters (s : string) : list string :=
  match s with
  | EmptyString => []
  | String c rest => String c EmptyString :: characters rest
  end.

(** What [for (const neighbor of adjacencyList[nodeId] || [])] iterates
    over: the array found, the characters of a non-empty string found,
    nothing for a falsy value; a truthy value that is not iterable (a
    function, [Object.prototype], a number) makes the loop throw. *)
Definition neighborsOf (rt : Runtime) (adjacencyList : Dictionary)
    (nodeId : string) : Completion (list string) :=
  match getMember rt adjacencyList nodeId with
  | OwnArray items | PrototypeArray items => Returned items
  | ObjectPrototype | BuiltinFunction => Thrown TypeError
  | NumberValue n => if Nat.eqb n 0 then Returned [] else Thrown TypeError
  | StringValue s => Returned (characters s)
  | Undefined => Returned []
  end.

Record DfsState : Type := mkDfs {
  visited : gset string;
  recursionStack : gset string
}.

(** The body of [for (const neighbor of ...)] in [hasCycle]; [rec] is the
    recursive call.  The result is [None] when the fuel ran out; otherwise
    an exception, or the value returned so far ([true]: the loop returned
    [true]; [false]: the loop ran to its end) with the two sets as the loop
    left them. *)
Fixpoint forNeighbors
    (rec : string → DfsState → option (Completion (bool * DfsState)))
    (neighbors : list string) (st : DfsState)
  : option (Completion (bool * DfsState)) :=
  match neighbors with
  | [] => Some (Returned (false, st))
  | neighbor :: rest =>
      if bool_decide (neighbor ∉ visited st) then
        match rec neighbor st with
        | None => None
        | Some (Thrown e) => Some (Thrown e)
        | Some (Returned (true, st')) => Some (Returned (true, st'))
        | Some (Returned (false, st')) => forNeighbors rec rest st'
        end
      else if bool_decide (neighbor ∈ recursionStack st)
      then Some (Returned (true, st))
      else forNeighbors rec rest st
  end.

Fixpoint hasCycle (fuel : nat) (rt : Runtime) (adjacencyList : Dictionary)
    (nodeId : string) (st : DfsState)
  : option (Completion (bool * DfsState)) :=
  match fuel with
  | O => None
  | S fuel' =>
      let st1 := {| visited := {[nodeId]} ∪ visited st;
                    recursionStack := {[nodeId]} ∪ recursionStack st |} in
      match neighborsOf rt adjacencyList nodeId with
      | Thrown e => Some (Thrown e)
      | Returned neighbors =>
          match forNeighbors (hasCycle fuel' rt adjacencyList) neighbors st1 with
          | None => None
          | Some (Thrown e) => Some (Thrown e)
          | Some (Returned (true, st2)) => Some (Returned (true, st2))
          | Some (Returned (false, st2)) =>
              Some (Returned
                      (false,
                       {| visited := visited st2;
                          recursionStack := recursionStack st2 ∖ {[nodeId]} |}))
          end
      end
  end.

(** The final [for (const nodeId of nodeIds)] loop; returns the last state
    as well, so that what the traversal touched can be observed. *)
Fixpoint forNodes (fuel : nat) (rt : Runtime) (adjacencyList : Dictionary)
    (nodeIds : list string) (st : DfsState)
  : option (Completion (bool * DfsState)) :=
  match nodeIds with
  | [] => Some (Returned (false, st))
  | nodeId :: rest =>
      if bool_decide (nodeId ∉ visited st) then
        match hasCycle fuel rt adjacencyList nodeId st with
        | None => None
        | Some (Thrown e) => Some (Thrown e)
        | Some (Returned (true, st')) => Some (Returned (true, st'))
        | Some (Returned (false, st')) => forNodes fuel rt adjacencyList rest st'
        end
      else forNodes fuel rt adjacencyList rest st
  end.

(** Every call of [hasCycle] marks a fresh id, and an id is a node id, the
    target of an edge or a character of one: that many nested calls cannot
    be exceeded. *)
Definition dfsFuel (nodeIds : list string) (edges : list CustomEdge) : nat :=
  S (length nodeIds + length edges
     + length (mjoin ((characters ∘ target) <$> edges))).

Definition runFlowCycles (rt : Runtime) (nodes : list CustomNode)
    (edges : list CustomEdge) : option (Completion (bool * DfsState)) :=
  let nodeIds := id <$> nodes in
  match buildAdjacency rt nodeIds edges with
  | Thrown e => Some (Thrown e)
  | Returned adjacencyList =>
      forNodes (dfsFuel nodeIds edges) rt adjacencyList nodeIds
               {| visited := ∅; recursionStack := ∅ |}
  end.

(** [hasFlowCycles]: [Some (Returned b)] when the call returns [b],
    [Some (Thrown TypeError)] when it throws. *)
Definition hasFlowCycles (rt : Runtime) (nodes : list CustomNode)
    (edges : list CustomEdge) : option (Completion bool) :=
  match runFlowCycles rt nodes edges with
  | None => None
  | Some (Thrown e) => Some (Thrown e)
  | Some (Returned (b, _)) => Some (Returned b)
  end.

(** ** Concrete flows used in the scenarios *)

Definition textNode (i : string) (t : option string) : CustomNode :=
  {| id := i; type := textMessage; position := mkPosition 0 0;
     data := {| label := "Send Message"; text := t; data_type := textMessage |} |}.

Definition simpleEdge (s t : string) : CustomEdge :=
  {| edge_id := "edge_" +:+ s +:+ "_" +:+ t; source := s; target := t;
     sourceHandle := None; targetHandle := None |}.

(** Two nodes with text and no connection. *)
Definition looseNodes : list CustomNode :=
  [textNode "A" (Some "hi"); textNode "B" (Some "hi")].

(** ** Specification-side notions *)

(** No edge has the node as its target. *)
Definition NoIncoming (edges : list CustomEdge) (n : CustomNode) : Prop :=
  Forall (λ e, target e ≠ id n) edges.

(** No edge has the node as its source. *)
Definition NoOutgoing (edges : list CustomEdge) (n : CustomNode) : Prop :=
  Forall (λ e, source e ≠ id n) edges.

(** Neither an incoming nor an outgoing edge. *)
Definition Isolated (edges : list CustomEdge) (n : CustomNode) : Prop :=
  NoIncoming edges n ∧ NoOutgoing edges n.

(** The message text is absent, or empty once white space is trimmed. *)
Definition EmptyText (n : CustomNode) : Prop :=
  match text (data n) with
  | None => True
  | Some t => JS.trim t = ""
  end.

#[global] Instance NoIncoming_dec edges n : Decision (NoIncoming edges n).
Proof. unfold NoIncoming. apply _. Defined.

#[global] Instance NoOutgoing_dec edges n : Decision (NoOutgoing edges n).
Proof. unfold NoOutgoing. apply _. Defined.

#[global] Instance Isolated_dec edges n : Decision (Isolated edges n).
Proof. unfold Isolated. apply _. Defined.

#[global] Instance EmptyText_dec n : Decision (EmptyText n).
Proof. unfold EmptyText. destruct (text (data n)); apply _. Defined.

(** The number of members of [nodes] that satisfy [P], with multiplicity. *)
Definition countNodes (P : CustomNode → Prop) `{!∀ n, Decision (P n)}
    (nodes : list CustomNode) : nat :=
  length (filter P nodes).

(** The three diagnostics in the order the design document fixes, each
    present or absent on its own condition. *)
Definition expectedErrors (nodes : list CustomNode) (edges : list CustomEdge)
  : list string :=
  (if decide (1 < countNodes (NoIncoming edges) nodes)
   then [startingPointError (countNodes (NoIncoming edges) nodes)] else []) ++
  (if decide (0 < countNodes EmptyText nodes)
   then [emptyTextError (countNodes EmptyText nodes)] else []) ++
  (if decide (1 < countNodes (Isolated edges) nodes)
   then [isolatedNodesError (countNodes (Isolated edges) nodes)] else []).

(** An edge with the given endpoints and handles. *)
Definition SameConnection (s : string) (sh : option string) (t : string)
    (th : option string) (e : CustomEdge) : Prop :=
  source e = s ∧ target e = t ∧ sourceHandle e = sh ∧ targetHandle e = th.

(** An edge leaving the given output port. *)
Definition SamePort (s : string) (sh : option string) (e : CustomEdge) : Prop :=
  source e = s ∧ sourceHandle e = sh.

(** The characters "0" to "9", and the strings made of them. *)
Definition isDigit (c : ascii) : bool :=
  let n := nat_of_ascii c in Nat.leb 48 n && Nat.leb n 57.

Fixpoint allDigits (s : string) : bool :=
  match s with
  | EmptyString => true
  | String c rest => isDigit c && allDigits rest
  end.

(** Strings that [trim] empties. *)
Fixpoint allWhiteSpace (s : string) : bool :=
  match s with
  | EmptyString => true
  | String c rest => JS.isWhiteSpace c && allWhiteSpace rest
  end.

(** The traversal edges: iterating over the neighbours of [u] yields [v]. *)
Definition arc (rt : Runtime) (adjacencyList : Dictionary) (u v : string)
  : Prop :=
  ∃ neighbors, neighborsOf rt adjacencyList u = Returned neighbors
               ∧ v ∈ neighbors.

(** A node fully explored: marked visited and no longer on the recursion
    stack. *)
Definition finished (st : DfsState) (u : string) : Prop :=
  u ∈ visited st ∧ u ∉ recursionStack st.

(** What holds of the two sets between any two steps of the traversal: the
    stack is part of the visited set, the finished nodes are closed under
    traversal edges, and no finished node lies on a cycle. *)
Record Inv (rt : Runtime) (adj : Dictionary) (st : DfsState) : Prop := mkInv {
  inv_stack : recursionStack st ⊆ visited st;
  inv_closed : ∀ u v, finished st u → arc rt adj u v → finished st v;
  inv_acyclic : ∀ u, finished st u → ¬ tc (arc rt adj) u u
}.

(** The outcome of a call or a loop started in [st] that returned: [true]
    comes with a cycle of traversal edges, [false] with a state that kept
    the stack and only grew the visited set. *)
Definition Post (rt : Runtime) (adj : Dictionary) (st : DfsState) (b : bool)
    (st' : DfsState) : Prop :=
  if b then ∃ c, tc (arc rt adj) c c
  else Inv rt adj st' ∧ recursionStack st' = recursionStack st
       ∧ visited st ⊆ visited st'.

(** No lookup of a key of [universe] makes the loop header throw. *)
Definition Iterable (rt : Runtime) (adj : Dictionary) (universe : gset string)
  : Prop :=
  ∀ u, u ∈ universe → ∃ neighbors, neighborsOf rt adj u = Returned neighbors.

(** The contract of a call [rec u st] that may nest [fuel] calls, none of
    which leaves [universe]: the call ends; it returns when every key of
    [universe] is iterable; and what it returns is as [Post] says. *)
Definition CallSpec (rt : Runtime) (adj : Dictionary) (universe : gset string)
    (rec : string → DfsState → option (Completion (bool * DfsState)))
    (fuel : nat) : Prop :=
  ∀ u st,
    Inv rt adj st → u ∉ visited st → u ∈ universe →
    size (universe ∖ visited st) ≤ fuel →
    (∀ w, w ∈ recursionStack st → rtc (arc rt adj) w u) →
    ∃ r, rec u st = Some r
         ∧ (Iterable rt adj universe → ∃ b st', r = Returned (b, st'))
         ∧ ∀ b st', r = Returned (b, st') →
             Post rt adj st b st' ∧ (b = false → u ∈ visited st').

(** The sublist of the edges whose source and target are both node ids. *)
Definition knownEdges (nodes : list CustomNode) (edges : list CustomEdge)
  : list CustomEdge :=
  filter (λ e, source e ∈ (id <$> nodes) ∧ target e ∈ (id <$> nodes)) edges.

(** The arcs of the flow graph: the edges with both endpoints among the
    node ids. *)
Definition flowArc (nodes : list CustomNode) (edges : list CustomEdge)
    (u v : string) : Prop :=
  u ∈ (id <$> nodes) ∧ v ∈ (id <$> nodes)
  ∧ ∃ e, e ∈ edges ∧ source e = u ∧ target e = v.

(** The flow graph has a directed cycle: a non-empty path from a node back
    to itself (a self-loop is one). *)
Definition HasCycle (nodes : list CustomNode) (edges : list CustomEdge) : Prop :=
  ∃ c, tc (flowArc nodes edges) c c.

(** The ids the traversal can touch: node ids, edge targets, and the
    characters of edge targets. *)
Definition reachableIds (nodeIds : list string) (edges : list CustomEdge)
  : gset string :=
  list_to_set nodeIds ∪ list_to_set (target <$> edges)
  ∪ list_to_set (mjoin ((characters ∘ target) <$> edges)).

(** A key that [Object.prototype] answers for: one of its methods, or
    [__proto__]. *)
Definition inheritedKey (rt : Runtime) (key : string) : Prop :=
  key = "__proto__" ∨ key ∈ objectPrototypeMembers rt.

(** Ordinary keys: no node is called [__proto__], and every endpoint of an
    edge that is not a node id is a key [Object.prototype] has nothing
    for. *)
Definition OrdinaryKeys (rt : Runtime) (nodes : list CustomNode)
    (edges : list CustomEdge) : Prop :=
  ("__proto__" ∉ (id <$> nodes))
  ∧ ∀ e, e ∈ edges →
      (source e ∈ (id <$> nodes) ∨ ¬ inheritedKey rt (source e))
      ∧ (target e ∈ (id <$> nodes) ∨ ¬ inheritedKey rt (target e)).

(** ** Identifiers ([generateNodeId], [generateEdgeId])

    [Date.now()] and [Math.random().toString(36)] are inputs: the
    millisecond count, and the base-36 rendering of the random number, a
    text that starts with "0." unless the number is zero. *)

(** [s.substr(start, len)] for non-negative [start] and [len]. *)
Definition substr (s : string) (start len : nat) : string :=
  String.substring start len s.

Definition generateNodeId (nodeType : string) (now : nat) (random36 : string)
  : string :=
  nodeType +:+ "_" +:+ JS.numberToString now +:+ "_" +:+ substr random36 2 9.

Definition generateEdgeId (sourceId targetId : string) (now : nat) : string :=
  "edge_" +:+ sourceId +:+ "_" +:+ targetId +:+ "_" +:+ JS.numberToString now.

(** ** [validateNodeData]

    Its argument has type [any]; the values considered are [undefined] and
    the values of JSON. *)

Inductive JSValue : Type :=
  | JsUndefined
  | JsNull
  | JsBoolean (b : bool)
  | JsNumber (x : spec_float)
  | JsString (s : string)
  | JsArray (items : list JSValue)
  | JsObject (props : gmap string JSValue).

(** [ToBoolean]: [undefined], [null], [false], zeros, NaN and the empty
    string are falsy. *)
Definition truthy (v : JSValue) : bool :=
  match v with
  | JsUndefined | JsNull => false
  | JsBoolean b => b
  | JsNumber (S754_zero _) | JsNumber S754_nan => false
  | JsNumber _ => true
  | JsString s => negb (String.eqb s "")
  | JsArray _ | JsObject _ => true
  end.

Definition typeof (v : JSValue) : string :=
  match v with
  | JsUndefined => "undefined"
  | JsNull | JsArray _ | JsObject _ => "object"
  | JsBoolean _ => "boolean"
  | JsNumber _ => "number"
  | JsString _ => "string"
  end.

(** [v.key] on a value other than [undefined] and [null], for a key that no
    built-in prototype defines ([label] and [type] are such keys): an own
    property of an object, [undefined] otherwise. *)
Definition getProp (v : JSValue) (key : string) : JSValue :=
  match v with
  | JsObject props => default JsUndefined (props !! key)
  | _ => JsUndefined
  end.

(** [data && typeof data.label === 'string' && typeof data.type === 'string'
    && data.label.trim() !== '']: each [&&] yields its left operand when that
    one is falsy, and its right operand otherwise. *)
Definition validateNodeData (data : JSValue) : JSValue :=
  if negb (truthy data) then data
  else if negb (String.eqb (typeof (getProp data "label")) "string")
  then JsBoolean false
  else if negb (String.eqb (typeof (getProp data "type")) "string")
  then JsBoolean false
  else
    match getProp data "label" with
    | JsString l => JsBoolean (negb (String.eqb (JS.trim l) ""))
    | _ => JsBoolean false
    end.

(** ** Node type configuration ([src/config/nodeTypes.ts]) *)

(** [Partial<NodeData>], also the shape of the patches the settings panel
    sends: every field may be missing; [text], optional already, may be
    present with the value [undefined]. *)
Record PartialNodeData : Type := mkPartial {
  partial_label : option string;
  partial_text : option (option string);
  partial_type : option NodeType
}.

Record NodeConfig : Type := mkNodeConfig {
  config_type : NodeType;
  config_label : string;
  config_description : string;
  config_icon : list N;  (* UTF-16 code units *)
  defaultData : PartialNodeData
}.

Definition nodeTypeName (t : NodeType) : string :=
  match t with textMessage => "textMessage" end.

Definition NODE_TYPES_CONFIG (t : NodeType) : NodeConfig :=
  match t with
  | textMessage =>
      {| config_type := textMessage;
         config_label := "Message";
         config_description := "Send a text message";
         config_icon := [55357%N; 56492%N];
         defaultData :=
           {| partial_label := Some "Send Message";
              partial_text := Some (Some "Type your message here...");
              partial_type := Some textMessage |} |}
  end.

Definition getNodeConfig (nodeType : NodeType) : NodeConfig :=
  NODE_TYPES_CONFIG nodeType.

(** [{...config.defaultData, id: `${nodeType}_${Date.now()}`}] *)
Definition createDefaultNodeData (nodeType : NodeType) (now : nat)
  : PartialNodeData * string :=
  let config := getNodeConfig nodeType in
  (defaultData config, nodeTypeName nodeType +:+ "_" +:+ JS.numberToString now).

(** ** The editor ([src/App.tsx], [SettingsPanel])

    The React state of [App] is a record, a handler a function from state to
    state; the updater given to a state setter is applied to the state the
    handler saw.  Timers are events of their own ([clearMessage]). *)

Inductive PanelType : Type := panelNodes | panelSettings.

Inductive MessageType : Type := messageError | messageSuccess | messageNone.

Record AppState : Type := mkApp {
  app_nodes : list CustomNode;
  app_edges : list CustomEdge;
  selectedNode : option CustomNode;
  panelType : PanelType;
  validationMessage : string;
  messageType : MessageType
}.

Definition initialState : AppState :=
  {| app_nodes := []; app_edges := []; selectedNode := None;
     panelType := panelNodes; validationMessage := "";
     messageType := messageNone |}.

(** React Flow's [Connection]: each field is a string or [null]. *)
Record Connection : Type := mkConnection {
  conn_source : option string;
  conn_target : option string;
  conn_sourceHandle : option string;
  conn_targetHandle : option string
}.

(** [a || b] for [a : string | null | undefined] and a string [b]. *)
Definition orString (a : option string) (b : string) : string :=
  match a with
  | Some s => if String.eqb s "" then b else s
  | None => b
  end.

(** [a || b] for [a], [b] of type [string | undefined]. *)
Definition orOption (a b : option string) : option string :=
  match a with
  | Some s => if String.eqb s "" then b else a
  | None => b
  end.

Definition onNodeClick (node : CustomNode) (st : AppState) : AppState :=
  {| app_nodes := app_nodes st; app_edges := app_edges st;
     selectedNode := Some node; panelType := panelSettings;
     validationMessage := validationMessage st; messageType := messageType st |}.

(** [onPaneClick] and [onBack] have the same body. *)
Definition onPaneClick (st : AppState) : AppState :=
  {| app_nodes := app_nodes st; app_edges := app_edges st;
     selectedNode := None; panelType := panelNodes;
     validationMessage := validationMessage st; messageType := messageType st |}.

Definition onBack (st : AppState) : AppState := onPaneClick st.

(** The callback of both [setTimeout] calls. *)
Definition clearMessage (st : AppState) : AppState :=
  {| app_nodes := app_nodes st; app_edges := app_edges st;
     selectedNode := selectedNode st; panelType := panelType st;
     validationMessage := ""; messageType := messageNone |}.

Definition connectionRefused : string :=
  "Cannot create connection: Source handles can only have one outgoing connection.".

(** [onConnect]; [rfAddEdge] stands for React Flow's [addEdge], a library
    function. *)
Definition onConnect
    (rfAddEdge : CustomEdge → list CustomEdge → list CustomEdge)
    (params : Connection) (now : nat) (st : AppState) : AppState :=
  let canMakeConnection :=
    canConnect (orString (conn_source params) "")
               (orOption (conn_sourceHandle params) None)
               (orString (conn_target params) "")
               (orOption (conn_targetHandle params) None)
               (app_edges st) in
  if canMakeConnection then
    let newEdge :=
      {| edge_id := generateEdgeId (orString (conn_source params) "")
                                   (orString (conn_target params) "") now;
         source := orString (conn_source params) "";
         target := orString (conn_target params) "";
         sourceHandle := orOption (conn_sourceHandle params) None;
         targetHandle := orOption (conn_targetHandle params) None |} in
    {| app_nodes := app_nodes st;
       app_edges := rfAddEdge newEdge (app_edges st);
       selectedNode := selectedNode st; panelType := panelType st;
       validationMessage := ""; messageType := messageNone |}
  else
    {| app_nodes := app_nodes st; app_edges := app_edges st;
       selectedNode := selectedNode st; panelType := panelType st;
       validationMessage := connectionRefused; messageType := messageError |}.

(** [onDrop]; [bounds] tells whether the canvas element was there to be
    measured, [payload] is the drag data ([None] for the empty string),
    [position'] the drop point as the initialised canvas projects it, [now]
    and [now'] the two readings of the clock. *)
Definition onDrop (bounds : bool) (payload : option NodeType)
    (position' : Position) (now now' : nat) (random36 : string)
    (st : AppState) : AppState :=
  match payload with
  | None => st
  | Some nodeType =>
      if negb bounds then st
      else
        let nodeConfig := getNodeConfig nodeType in
        let defaults := fst (createDefaultNodeData nodeType now) in
        let newNode :=
          {| id := generateNodeId (nodeTypeName nodeType) now' random36;
             type := nodeType;
             position := position';
             data :=
               {| label :=
                    orString (orOption (partial_label defaults)
                                (partial_label (defaultData nodeConfig)))
                             "New Node";
                  text :=
                    Some (orString
                            (orOption (mjoin (partial_text defaults))
                               (mjoin (partial_text (defaultData nodeConfig))))
                            "Enter text here");
                  data_type := nodeType |} |} in
        {| app_nodes := app_nodes st ++ [newNode];
           app_edges := app_edges st;
           selectedNode := selectedNode st; panelType := panelType st;
           validationMessage := validationMessage st;
           messageType := messageType st |}
  end.

(** [{...data, ...patch}] *)
Definition mergeData (d : NodeData) (patch : PartialNodeData) : NodeData :=
  {| label := default (label d) (partial_label patch);
     text := default (text d) (partial_text patch);
     data_type := default (data_type d) (partial_type patch) |}.

Definition patchNode (patch : PartialNodeData) (node : CustomNode) : CustomNode :=
  {| id := id node; type := type node; position := position node;
     data := mergeData (data node) patch |}.

Definition onUpdateNode (nodeId : string) (patch : PartialNodeData)
    (st : AppState) : AppState :=
  {| app_nodes :=
       (λ node, if String.eqb (id node) nodeId then patchNode patch node
                else node) <$> app_nodes st;
     app_edges := app_edges st;
     selectedNode :=
       match selectedNode st with
       | Some prev =>
           if String.eqb (id prev) nodeId then Some (patchNode patch prev)
           else Some prev
       | None => None
       end;
     panelType := panelType st;
     validationMessage := validationMessage st;
     messageType := messageType st |}.

(** The two handlers of the settings panel, for the selected node. *)
Definition handleTextChange (selected : CustomNode) (newText : string)
    (st : AppState) : AppState :=
  onUpdateNode (id selected)
    {| partial_label := None; partial_text := Some (Some newText);
       partial_type := None |} st.

Definition handleLabelChange (selected : CustomNode) (newLabel : string)
    (st : AppState) : AppState :=
  onUpdateNode (id selected)
    {| partial_label := Some newLabel; partial_text := None;
       partial_type := None |} st.

Definition savedMessage : string := "Flow saved successfully!".

(** [onSave]; the log line it writes is not part of the state. *)
Definition onSave (st : AppState) : AppState :=
  let validation := validateFlow (app_nodes st) (app_edges st) in
  if isValid validation then
    {| app_nodes := app_nodes st; app_edges := app_edges st;
       selectedNode := selectedNode st; panelType := panelType st;
       validationMessage := savedMessage; messageType := messageSuccess |}
  else
    {| app_nodes := app_nodes st; app_edges := app_edges st;
       selectedNode := selectedNode st; panelType := panelType st;
       validationMessage := String.concat " " (errors validation);
       messageType := messageError |}.

(** The banner is rendered when the message is a truthy string. *)
Definition bannerShown (st : AppState) : bool :=
  negb (String.eqb (validationMessage st) "").

(** A [NodeData] as the value [validateNodeData] would receive: an object
    with the keys [label] and [type], and [text] when it is there. *)
Definition nodeDataValue (d : NodeData) : JSValue :=
  JsObject
    (<["label" := JsString (label d)]>
       (<["type" := JsString (nodeTypeName (data_type d))]>
          match text d with
          | Some t => {["text" := JsString t]}
          | None => ∅
          end)).

(** Any sequence of connection attempts, each with the clock reading of its
    moment. *)
Definition connectAll
    (rfAddEdge : CustomEdge → list CustomEdge → list CustomEdge)
    (attempts : list (Connection * nat)) (st : AppState) : AppState :=
  foldl (λ st' attempt, onConnect rfAddEdge attempt.1 attempt.2 st') st attempts.

(** Dropping text-message nodes on a measured canvas, one after the other;
    a drop comes with its position, two clock readings and the rendering of
    the random number. *)
Definition dropAll (drops : list (Position * nat * nat * string))
    (st : AppState) : AppState :=
  foldl (λ st' d, onDrop true (Some textMessage) d.1.1.1 d.1.1.2 d.1.2 d.2 st')
        st drops.

(** What the connection policy keeps of an edge list: no edge joins a node
    to itself, and no two edges leave the same output port. *)
Definition PortsSingleUse (edges : list CustomEdge) : Prop :=
  (∀ e, e ∈ edges → source e ≠ target e)
  ∧ ∀ i j e1 e2, edges !! i = Some e1 → edges !! j = Some e2 →
      source e1 = source e2 → sourceHandle e1 = sourceHandle e2 → i = j.

(** The events of the editor that the handlers of [App] serve. *)
Inductive Event : Type :=
  | NodeClick (node : CustomNode)
  | PaneClick
  | Back
  | Connect (params : Connection) (now : nat)
  | Drop (bounds : bool) (payload : option NodeType) (position' : Position)
         (now now' : nat) (random36 : string)
  | UpdateNode (nodeId : string) (patch : PartialNodeData)
  | Save
  | TimerFired.

Definition handle
    (rfAddEdge : CustomEdge → list CustomEdge → list CustomEdge)
    (ev : Event) (st : AppState) : AppState :=
  match ev with
  | NodeClick node => onNodeClick node st
  | PaneClick => onPaneClick st
  | Back => onBack st
  | Connect params now => onConnect rfAddEdge params now st
  | Drop bounds payload position' now now' random36 =>
      onDrop bounds payload position' now now' random36 st
  | UpdateNode nodeId patch => onUpdateNode nodeId patch st
  | Save => onSave st
  | TimerFired => clearMessage st
  end.

Definition run
    (rfAddEdge : CustomEdge → list CustomEdge → list CustomEdge)
    (events : list Event) (st : AppState) : AppState :=
  foldl (λ st' ev, handle rfAddEdge ev st') st events.

(** What the side panel renders: the nodes panel, the settings panel, or
    nothing ([null]). *)
Inductive SidePanel : Type := showsNodes | showsSettings | showsNothing.

Definition sidePanel (st : AppState) : SidePanel :=
  match panelType st with
  | panelNodes => showsNodes
  | panelSettings =>
      match selectedNode st with
      | Some _ => showsSettings
      | None => showsNothing
      end
  end.

(** ** The scenarios of the design document, evaluated *)

Example validate_scenario_empty_text :
  validateFlow [textNode "A" (Some "hi"); textNode "B" (Some "")]
               [simpleEdge "A" "B"]
  = {| isValid := false;
       errors := ["1 node(s) have empty message text. Please add text to all message nodes before saving."] |}.
Proof. vm_compute. reflexivity. Qed.

Example validate_scenario_disconnected :
  validateFlow [textNode "A" (Some "hi"); textNode "B" (Some "hi")] []
  = {| isValid := false;
       errors := ["Flow validation failed: 2 nodes have empty target handles. Only one node can be the starting point of the flow.";
                  "2 nodes are completely isolated (no connections). Please connect them to the flow or remove them."] |}.
Proof. vm_compute. reflexivity. Qed.

Example cycles_two_nodes :
  hasFlowCycles standardRuntime [textNode "A" None; textNode "B" None]
                [simpleEdge "A" "B"; simpleEdge "B" "A"]
  = Some (Returned true).
Proof. vm_compute. reflexivity. Qed.

Example cycles_chain :
  hasFlowCycles standardRuntime [textNode "A" None; textNode "B" None]
                [simpleEdge "A" "B"]
  = Some (Returned false).
Proof. vm_compute. reflexivity. Qed.

(** ** Decimal numerals and the three messages *)

Section Messages.

Lemma string_of_uint_digits d : allDigits (NilEmpty.string_of_uint d) = true.
Proof. induction d; simpl; auto. Qed.

Lemma numberToString_digits n : allDigits (JS.numberToString n) = true.
Proof. apply string_of_uint_digits. Qed.

Lemma numberToString_inj a b :
  JS.numberToString a = JS.numberToString b → a = b.
Proof.
  unfold JS.numberToString. intros H.
  apply DecimalNat.Unsigned.to_uint_inj.
  assert (Hs : Some (Nat.to_uint a) = Some (Nat.to_uint b)).
  { rewrite <- !NilEmpty.usu. now rewrite H. }
  now inversion Hs.
Qed.

Lemma numberToString_head n :
  ∃ c rest, JS.numberToString n = String c rest ∧ isDigit c = true.
Proof.
  pose proof (numberToString_digits n) as Hd.
  destruct (JS.numberToString n) as [|c rest] eqn:E.
  - exfalso. unfold JS.numberToString in E.
    pose proof (NilEmpty.usu (Nat.to_uint n)) as Hu. rewrite E in Hu.
    simpl in Hu. inversion Hu as [Hn].
    pose proof (DecimalNat.Unsigned.of_to n) as Hof. rewrite <- Hn in Hof.
    simpl in Hof. subst n. discriminate Hn.
  - simpl in Hd. apply andb_prop in Hd as [Hc _]. eauto.
Qed.

(** Two numerals followed by a space and some text are equal only when the
    numerals and the texts are. *)
Lemma digits_then_space d1 d2 r1 r2 :
  allDigits d1 = true → allDigits d2 = true →
  d1 +:+ String " " r1 = d2 +:+ String " " r2 → d1 = d2 ∧ r1 = r2.
Proof.
  revert d2. induction d1 as [|c1 d1 IH]; intros [|c2 d2]; simpl; intros H1 H2 E.
  - now inversion E.
  - inversion E; subst. discriminate.
  - inversion E; subst. discriminate.
  - apply andb_prop in H1 as [_ H1]. apply andb_prop in H2 as [_ H2].
    inversion E; subst. destruct (IH d2 H1 H2) as [-> ->]; auto.
Qed.

Lemma append_inj_l (s a b : string) : s +:+ a = s +:+ b → a = b.
Proof. induction s as [|c s IH]; simpl; intros E; [done|]. inversion E; auto. Qed.

Lemma startingPointError_inj a b :
  startingPointError a = startingPointError b → a = b.
Proof.
  unfold startingPointError. intros E%append_inj_l.
  apply numberToString_inj.
  now apply (digits_then_space _ _ _ _ (numberToString_digits a)
               (numberToString_digits b)) in E as [E _].
Qed.

Lemma emptyTextError_inj a b : emptyTextError a = emptyTextError b → a = b.
Proof.
  unfold emptyTextError. intros E. apply numberToString_inj.
  now apply (digits_then_space _ _ _ _ (numberToString_digits a)
               (numberToString_digits b)) in E as [E _].
Qed.

Lemma isolatedNodesError_inj a b :
  isolatedNodesError a = isolatedNodesError b → a = b.
Proof.
  unfold isolatedNodesError. intros E. apply numberToString_inj.
  now apply (digits_then_space _ _ _ _ (numberToString_digits a)
               (numberToString_digits b)) in E as [E _].
Qed.

Lemma starting_ne_emptyText a b : startingPointError a ≠ emptyTextError b.
Proof.
  unfold startingPointError, emptyTextError. intros E.
  destruct (numberToString_head b) as (c & rest & Hb & Hc).
  rewrite Hb in E. simpl in E. inversion E; subst. discriminate.
Qed.

Lemma starting_ne_isolated a b : startingPointError a ≠ isolatedNodesError b.
Proof.
  unfold startingPointError, isolatedNodesError. intros E.
  destruct (numberToString_head b) as (c & rest & Hb & Hc).
  rewrite Hb in E. simpl in E. inversion E; subst. discriminate.
Qed.

Lemma emptyText_ne_isolated a b : emptyTextError a ≠ isolatedNodesError b.
Proof.
  unfold emptyTextError, isolatedNodesError. intros E.
  apply digits_then_space in E as [_ E]; auto using numberToString_digits.
  discriminate E.
Qed.

End Messages.

(** ** Trimming *)

Section Trim.

Lemma trimStart_empty s : JS.trimStart s = "" ↔ allWhiteSpace s = true.
Proof.
  induction s as [|c s IH]; simpl; [done|].
  destruct (JS.isWhiteSpace c); simpl; [done|]. split; discriminate.
Qed.

(** What [trimStart] leaves does not start with white space. *)
Lemma trimStart_head s :
  JS.trimStart s = ""
  ∨ ∃ c rest, JS.trimStart s = String c rest ∧ JS.isWhiteSpace c = false.
Proof.
  induction s as [|c s IH]; simpl; [by left|].
  destruct (JS.isWhiteSpace c) eqn:E; [done|]. right. eauto.
Qed.

Lemma rev_app_empty s1 s2 : String.rev_app s1 s2 = "" ↔ s1 = "" ∧ s2 = "".
Proof.
  revert s2. induction s1 as [|c s1 IH]; intros s2; simpl.
  - split; [done|]. by intros [_ ->].
  - rewrite IH. split; intros [? ?]; discriminate.
Qed.

Lemma allWhiteSpace_rev_app s1 s2 :
  allWhiteSpace (String.rev_app s1 s2) = allWhiteSpace s1 && allWhiteSpace s2.
Proof.
  revert s2. induction s1 as [|c s1 IH]; intros s2; simpl; [done|].
  rewrite IH. simpl. destruct (JS.isWhiteSpace c), (allWhiteSpace s1); done.
Qed.

Lemma allWhiteSpace_rev s : allWhiteSpace (String.rev s) = allWhiteSpace s.
Proof.
  unfold String.rev. rewrite allWhiteSpace_rev_app. simpl. apply andb_true_r.
Qed.

(** A text trims to the empty string exactly when it consists of white
    space only. *)
Lemma trim_empty s : JS.trim s = "" ↔ allWhiteSpace s = true.
Proof.
  unfold JS.trim, JS.trimEnd, String.rev at 1.
  rewrite rev_app_empty, trimStart_empty, allWhiteSpace_rev. split.
  - intros [Hws _]. apply trimStart_empty.
    destruct (trimStart_head s) as [E|(c & rest & E & Hc)]; [done|].
    rewrite E in Hws. simpl in Hws. by rewrite Hc in Hws.
  - intros E%trimStart_empty. by rewrite E.
Qed.

Example trim_both_ends : JS.trim "  hi there  " = "hi there".
Proof. reflexivity. Qed.

End Trim.

(** ** The flow validator *)

Section Validator.

Lemma filter_reflect {A} (f : A → bool) (P : A → Prop) `{!∀ x, Decision (P x)}
    (l : list A) :
  (∀ x, f x = true ↔ P x) → List.filter f l = filter P l.
Proof.
  intros Hf. induction l as [|x l IH]; [done|].
  simpl. rewrite filter_cons. destruct (f x) eqn:E.
  - rewrite decide_True by (by apply Hf). by rewrite IH.
  - rewrite decide_False; [done|]. intros HP%Hf. congruence.
Qed.

Lemma some_false {A} (p : A → bool) (l : list A) :
  JS.some p l = false ↔ Forall (λ x, p x = false) l.
Proof.
  unfold JS.some. induction l as [|x l IH]; simpl.
  - split; auto.
  - rewrite orb_false_iff, IH, Forall_cons. tauto.
Qed.

Lemma hasIncoming_reflect edges n :
  negb (hasIncoming edges n) = true ↔ NoIncoming edges n.
Proof.
  rewrite negb_true_iff. unfold hasIncoming, NoIncoming.
  rewrite some_false. apply Forall_iff. intros e. apply String.eqb_neq.
Qed.

Lemma hasOutgoing_reflect edges n :
  negb (hasOutgoing edges n) = true ↔ NoOutgoing edges n.
Proof.
  rewrite negb_true_iff. unfold hasOutgoing, NoOutgoing.
  rewrite some_false. apply Forall_iff. intros e. apply String.eqb_neq.
Qed.

Lemma isolated_reflect edges n :
  negb (hasIncoming edges n) && negb (hasOutgoing edges n) = true
  ↔ Isolated edges n.
Proof.
  unfold Isolated.
  rewrite andb_true_iff, hasIncoming_reflect, hasOutgoing_reflect. tauto.
Qed.

Lemma hasEmptyText_reflect n : hasEmptyText n = true ↔ EmptyText n.
Proof.
  unfold hasEmptyText, EmptyText. destruct (text (data n)) as [t|]; [|tauto].
  rewrite orb_true_iff, !String.eqb_eq. split; [|tauto].
  intros [->|H]; [reflexivity|exact H].
Qed.

(** What the code returns, in terms of the specification-side counts. *)
Lemma validateFlow_unfold nodes edges :
  validateFlow nodes edges =
  if decide (length nodes ≤ 1) then {| isValid := true; errors := [] |}
  else {| isValid := bool_decide (expectedErrors nodes edges = []);
          errors := expectedErrors nodes edges |}.
Proof.
  unfold validateFlow, expectedErrors, countNodes, JS.push.
  rewrite (filter_reflect (λ node, negb (hasIncoming edges node))
             (NoIncoming edges)) by apply hasIncoming_reflect.
  rewrite (filter_reflect
             (λ node, negb (hasIncoming edges node) && negb (hasOutgoing edges node))
             (Isolated edges)) by apply isolated_reflect.
  rewrite (filter_reflect hasEmptyText EmptyText) by apply hasEmptyText_reflect.
  destruct (Nat.leb_spec (length nodes) 1) as [Hle|Hgt].
  { by rewrite decide_True by lia. }
  rewrite decide_False by lia.
  destruct (Nat.ltb_spec 1 (length (filter (NoIncoming edges) nodes)));
    destruct (Nat.ltb_spec 0 (length (filter EmptyText nodes)));
    destruct (Nat.ltb_spec 1 (length (filter (Isolated edges) nodes)));
    repeat case_decide; try lia; reflexivity.
Qed.

Lemma elem_of_guarded (P : Prop) `{!Decision P} (x y : string) :
  y ∈ (if decide P then [x] else []) ↔ P ∧ y = x.
Proof.
  case_decide; rewrite ?list_elem_of_singleton, ?elem_of_nil; tauto.
Qed.

Lemma elem_of_expectedErrors nodes edges m :
  m ∈ expectedErrors nodes edges ↔
    (1 < countNodes (NoIncoming edges) nodes
     ∧ m = startingPointError (countNodes (NoIncoming edges) nodes))
    ∨ (0 < countNodes EmptyText nodes
       ∧ m = emptyTextError (countNodes EmptyText nodes))
    ∨ (1 < countNodes (Isolated edges) nodes
       ∧ m = isolatedNodesError (countNodes (Isolated edges) nodes)).
Proof.
  unfold expectedErrors. by rewrite !elem_of_app, !elem_of_guarded.
Qed.

Lemma startingPointError_expected nodes edges j :
  startingPointError j ∈ expectedErrors nodes edges
  ↔ 1 < countNodes (NoIncoming edges) nodes
    ∧ j = countNodes (NoIncoming edges) nodes.
Proof.
  rewrite elem_of_expectedErrors. split.
  - intros [[H E]|[[H E]|[H E]]].
    + split; [done|]. by apply startingPointError_inj.
    + by apply starting_ne_emptyText in E.
    + by apply starting_ne_isolated in E.
  - intros [H ->]. by left.
Qed.

Lemma emptyTextError_expected nodes edges j :
  emptyTextError j ∈ expectedErrors nodes edges
  ↔ 0 < countNodes EmptyText nodes ∧ j = countNodes EmptyText nodes.
Proof.
  rewrite elem_of_expectedErrors. split.
  - intros [[H E]|[[H E]|[H E]]].
    + symmetry in E. by apply starting_ne_emptyText in E.
    + split; [done|]. by apply emptyTextError_inj.
    + by apply emptyText_ne_isolated in E.
  - intros [H ->]. right. by left.
Qed.

Lemma isolatedNodesError_expected nodes edges j :
  isolatedNodesError j ∈ expectedErrors nodes edges
  ↔ 1 < countNodes (Isolated edges) nodes
    ∧ j = countNodes (Isolated edges) nodes.
Proof.
  rewrite elem_of_expectedErrors. split.
  - intros [[H E]|[[H E]|[H E]]].
    + symmetry in E. by apply starting_ne_isolated in E.
    + symmetry in E. by apply emptyText_ne_isolated in E.
    + split; [done|]. by apply isolatedNodesError_inj.
  - intros [H ->]. right. by right.
Qed.

Lemma errors_of_many nodes edges :
  1 < length nodes →
  errors (validateFlow nodes edges) = expectedErrors nodes edges.
Proof. intros H. rewrite validateFlow_unfold, decide_False by lia. done. Qed.

Lemma countNodes_mono (P Q : CustomNode → Prop)
    `{!∀ n, Decision (P n)} `{!∀ n, Decision (Q n)} nodes :
  (∀ n, P n → Q n) → countNodes P nodes ≤ countNodes Q nodes.
Proof.
  intros HPQ. unfold countNodes. induction nodes as [|n nodes IH]; [done|].
  rewrite !filter_cons. repeat case_decide; simpl; try lia.
  exfalso; auto.
Qed.

Lemma countNodes_pos (P : CustomNode → Prop) `{!∀ n, Decision (P n)} nodes :
  0 < countNodes P nodes ↔ ∃ n, n ∈ nodes ∧ P n.
Proof.
  unfold countNodes. split.
  - intros Hpos. destruct (filter P nodes) as [|n l] eqn:E; [simpl in Hpos; lia|].
    assert (Hin : n ∈ filter P nodes) by (rewrite E; left).
    apply list_elem_of_filter in Hin as [HP Hn]. eauto.
  - intros (n & Hn & HP).
    assert (Hin : n ∈ filter P nodes) by (by apply list_elem_of_filter).
    destruct (filter P nodes); [by apply elem_of_nil in Hin|simpl; lia].
Qed.

End Validator.

(** ** Properties of [validateFlow] *)

(** C1. For every node collection and edge list, [isValid] is [true] exactly
    when [errors] is empty, and [errors] holds every applicable diagnostic:
    for more than one node, the starting-point error, the empty-text error
    and the isolated-nodes error, each present exactly on its own condition,
    in that order (for at most one node no diagnostic applies). *)
Theorem validateFlow_valid_iff_no_errors nodes edges :
  (isValid (validateFlow nodes edges) = true
   ↔ errors (validateFlow nodes edges) = [])
  ∧ errors (validateFlow nodes edges) =
      if decide (length nodes ≤ 1) then []
      else
        ((if decide (1 < countNodes (NoIncoming edges) nodes)
          then [startingPointError (countNodes (NoIncoming edges) nodes)]
          else []) ++
         (if decide (0 < countNodes EmptyText nodes)
          then [emptyTextError (countNodes EmptyText nodes)] else []) ++
         (if decide (1 < countNodes (Isolated edges) nodes)
          then [isolatedNodesError (countNodes (Isolated edges) nodes)]
          else []))%list.
Proof.
  rewrite validateFlow_unfold. fold (expectedErrors nodes edges).
  case_decide; simpl; [done|]. split; [|done]. apply bool_decide_eq_true.
Qed.

(** C2. With more than one node, the starting-point error is among the
    errors exactly when more than one node has no incoming edge, and the
    count it states is the number of such nodes; with zero or one such node
    there is no starting-point error. *)
Theorem starting_point_error_iff nodes edges :
  1 < length nodes →
  (∀ j, startingPointError j ∈ errors (validateFlow nodes edges)
        ↔ 1 < countNodes (NoIncoming edges) nodes
          ∧ j = countNodes (NoIncoming edges) nodes)
  ∧ (countNodes (NoIncoming edges) nodes ≤ 1 →
     ∀ j, startingPointError j ∉ errors (validateFlow nodes edges)).
Proof.
  intros Hlen. rewrite errors_of_many by done. split.
  - intros j. apply startingPointError_expected.
  - intros Hle j [Hgt _]%startingPointError_expected. lia.
Qed.

Lemma starting_point_error_iff_witness :
  (∀ j, startingPointError j
          ∈ errors (validateFlow looseNodes [])
        ↔ 1 < countNodes (NoIncoming []) looseNodes
          ∧ j = countNodes (NoIncoming []) looseNodes)
  ∧ (countNodes (NoIncoming []) looseNodes ≤ 1 →
     ∀ j, startingPointError j
            ∉ errors (validateFlow looseNodes [])).
Proof.
  apply (starting_point_error_iff looseNodes []).
  vm_compute. lia.
Defined.

(** C3. A node collection with zero or one members is valid with an empty
    errors list, whatever the edges. *)
Theorem validateFlow_trivial nodes edges :
  length nodes ≤ 1 →
  validateFlow nodes edges = {| isValid := true; errors := [] |}.
Proof. intros Hlen. rewrite validateFlow_unfold. by rewrite decide_True. Qed.

Lemma validateFlow_trivial_witness :
  validateFlow [textNode "A" None] [simpleEdge "A" "A"; simpleEdge "X" "Y"]
  = {| isValid := true; errors := [] |}.
Proof.
  apply (validateFlow_trivial [textNode "A" None]
           [simpleEdge "A" "A"; simpleEdge "X" "Y"]).
  simpl. lia.
Defined.

(** C4. With more than one node, the empty-text error is among the errors
    exactly when some node has its text absent or empty after trimming, and
    it carries the number of such nodes; for A(text "hi"), B(text "") and
    the edge A→B the result is invalid with that single error, counting one
    node. *)
Theorem empty_text_error_iff :
  (∀ nodes edges, 1 < length nodes →
     (∀ j, emptyTextError j ∈ errors (validateFlow nodes edges)
           ↔ (∃ n, n ∈ nodes ∧ EmptyText n) ∧ j = countNodes EmptyText nodes))
  ∧ validateFlow [textNode "A" (Some "hi"); textNode "B" (Some "")] [simpleEdge "A" "B"]
    = {| isValid := false; errors := [emptyTextError 1] |}.
Proof.
  split; [|by vm_compute].
  intros nodes edges Hlen j. rewrite errors_of_many by done.
  rewrite emptyTextError_expected. by rewrite countNodes_pos.
Qed.

Lemma empty_text_error_iff_witness :
  emptyTextError 1
    ∈ errors (validateFlow [textNode "A" (Some "hi"); textNode "B" (Some " ")] [])
  ↔ (∃ n, n ∈ [textNode "A" (Some "hi"); textNode "B" (Some " ")] ∧ EmptyText n)
    ∧ 1 = countNodes EmptyText [textNode "A" (Some "hi"); textNode "B" (Some " ")].
Proof.
  apply (proj1 empty_text_error_iff
           [textNode "A" (Some "hi"); textNode "B" (Some " ")] []).
  simpl. lia.
Defined.

(** C10. With more than one node, whenever the isolated-nodes error is among
    the errors (more than one node has neither an incoming nor an outgoing
    edge), the starting-point error is among them too, since an isolated
    node has no incoming edge; so the isolated-nodes error is never the only
    entry. *)
Theorem isolated_error_implies_starting_point_error nodes edges k :
  1 < length nodes →
  isolatedNodesError k ∈ errors (validateFlow nodes edges) →
  1 < countNodes (Isolated edges) nodes
  ∧ countNodes (Isolated edges) nodes ≤ countNodes (NoIncoming edges) nodes
  ∧ startingPointError (countNodes (NoIncoming edges) nodes)
      ∈ errors (validateFlow nodes edges)
  ∧ errors (validateFlow nodes edges) ≠ [isolatedNodesError k].
Proof.
  intros Hlen. rewrite errors_of_many by done.
  intros [Hiso ->]%isolatedNodesError_expected.
  assert (Hmono : countNodes (Isolated edges) nodes
                  ≤ countNodes (NoIncoming edges) nodes).
  { apply countNodes_mono. by intros n [Hin _]. }
  assert (Hstart : startingPointError (countNodes (NoIncoming edges) nodes)
                   ∈ expectedErrors nodes edges).
  { apply startingPointError_expected. split; [lia|done]. }
  repeat split; try done.
  intros E. rewrite E in Hstart. apply list_elem_of_singleton in Hstart.
  by apply starting_ne_isolated in Hstart.
Qed.

Lemma isolated_error_implies_starting_point_error_witness :
  1 < countNodes (Isolated []) looseNodes
  ∧ countNodes (Isolated []) looseNodes
    ≤ countNodes (NoIncoming []) looseNodes
  ∧ startingPointError
      (countNodes (NoIncoming []) looseNodes)
      ∈ errors (validateFlow looseNodes [])
  ∧ errors (validateFlow looseNodes [])
    ≠ [isolatedNodesError 2].
Proof.
  apply (isolated_error_implies_starting_point_error looseNodes [] 2).
  - vm_compute. lia.
  - vm_compute. right. left.
Defined.

(** ** The connection policy *)

Section Connection.

Lemma strictEq_eq a b : JS.strictEq a b = true ↔ a = b.
Proof.
  destruct a as [s|], b as [t|]; simpl; try (split; congruence).
  rewrite String.eqb_eq. split; congruence.
Qed.

Lemma found_find {A} (p : A → bool) (l : list A) :
  JS.found (JS.find p l) = true ↔ ∃ x, x ∈ l ∧ p x = true.
Proof.
  unfold JS.find. induction l as [|x l IH]; simpl.
  - split; [discriminate|]. intros (x & Hx & _). by apply elem_of_nil in Hx.
  - destruct (p x) eqn:E; simpl.
    + split; [|done]. intros _. exists x. split; [left|done].
    + rewrite IH. split.
      * intros (y & Hy & Hp). exists y. split; [by right|done].
      * intros (y & Hy & Hp). apply elem_of_cons in Hy as [->|Hy]; [congruence|].
        eauto.
Qed.

Lemma samePort_reflect s sh e :
  String.eqb (source e) s && JS.strictEq (sourceHandle e) sh = true
  ↔ SamePort s sh e.
Proof.
  unfold SamePort. by rewrite andb_true_iff, String.eqb_eq, strictEq_eq.
Qed.

Lemma sameConnection_port s sh t th e :
  SameConnection s sh t th e → SamePort s sh e.
Proof. unfold SameConnection, SamePort. tauto. Qed.

(** The third test of [canConnect] never decides: a duplicate leaves the
    same output port, so the second test has rejected it already. *)
Lemma canConnect_true_iff s sh t th edges :
  canConnect s sh t th edges = true
  ↔ s ≠ t ∧ ¬ ∃ e, e ∈ edges ∧ SamePort s sh e.
Proof.
  unfold canConnect. destruct (String.eqb_spec s t) as [->|Hne].
  { split; [discriminate|]. by intros [? _]. }
  set (port := λ edge : CustomEdge,
         String.eqb (source edge) s && JS.strictEq (sourceHandle edge) sh).
  set (dup := λ edge : CustomEdge,
         String.eqb (source edge) s && String.eqb (target edge) t &&
         JS.strictEq (sourceHandle edge) sh && JS.strictEq (targetHandle edge) th).
  destruct (JS.found (JS.find port edges)) eqn:Eport.
  - apply found_find in Eport as (e & He & Hp%samePort_reflect).
    split; [discriminate|]. intros [_ Hno]. destruct Hno. eauto.
  - assert (Hno : ¬ ∃ e, e ∈ edges ∧ SamePort s sh e).
    { intros (e & He & Hp%samePort_reflect).
      assert (JS.found (JS.find port edges) = true) by (apply found_find; eauto).
      congruence. }
    destruct (JS.found (JS.find dup edges)) eqn:Edup; [|done].
    apply found_find in Edup as (e & He & Hd). destruct Hno. exists e.
    split; [done|]. apply samePort_reflect. unfold dup in Hd.
    rewrite !andb_true_iff in Hd. rewrite andb_true_iff. tauto.
Qed.

Lemma canConnect_false_iff s sh t th edges :
  canConnect s sh t th edges = false
  ↔ s = t ∨ ∃ e, e ∈ edges ∧ SamePort s sh e.
Proof.
  rewrite <- not_true_iff_false, canConnect_true_iff.
  destruct (decide (s = t)) as [->|Hne]; [split; [by left|tauto]|].
  destruct (decide (Exists (SamePort s sh) edges)) as [Hex|Hno].
  - apply Exists_exists in Hex. split; [by right|]. tauto.
  - rewrite Exists_exists in Hno. split; [tauto|]. intros [?|?]; done.
Qed.

End Connection.

(** ** Properties of [canConnect] *)

(** C5. When some existing edge already leaves the output port
    (sourceNodeId, sourceHandle), two absent handles counting as the same
    port, [canConnect] is [false] for every target node and target handle;
    on a first attempt from that port, with distinct endpoints and no exact
    duplicate present, it is [true]. *)
Theorem canConnect_single_outgoing :
  (∀ s sh edges, (∃ e, e ∈ edges ∧ source e = s ∧ sourceHandle e = sh) →
     ∀ t th, canConnect s sh t th edges = false)
  ∧ (∀ s sh t th edges,
       (∀ e, e ∈ edges → ¬ (source e = s ∧ sourceHandle e = sh)) →
       s ≠ t →
       (∀ e, e ∈ edges → ¬ SameConnection s sh t th e) →
       canConnect s sh t th edges = true)
  ∧ canConnect "A" None "C" None [simpleEdge "A" "B"] = false.
Proof.
  split; [|split; [|by vm_compute]].
  - intros s sh edges Hex t th. apply canConnect_false_iff. by right.
  - intros s sh t th edges Hfirst Hne _. apply canConnect_true_iff.
    split; [done|]. intros (e & He & Hp). by apply (Hfirst e).
Qed.

Lemma canConnect_single_outgoing_witness :
  canConnect "A" (Some "out") "C" (Some "in")
    [mkEdge "e1" "A" "B" (Some "out") None] = false
  ∧ canConnect "A" (Some "out") "C" (Some "in")
      [mkEdge "e1" "B" "C" (Some "out") (Some "in")] = true.
Proof.
  split.
  - apply (proj1 canConnect_single_outgoing "A" (Some "out")
             [mkEdge "e1" "A" "B" (Some "out") None]).
    exists (mkEdge "e1" "A" "B" (Some "out") None).
    split; [left|split; reflexivity].
  - apply (proj1 (proj2 canConnect_single_outgoing) "A" (Some "out") "C" (Some "in")
             [mkEdge "e1" "B" "C" (Some "out") (Some "in")]).
    + intros e ->%list_elem_of_singleton [Hs _]. discriminate Hs.
    + discriminate.
    + intros e ->%list_elem_of_singleton [Hs _]. discriminate Hs.
Defined.

(** C6, as stated, fails: with the edge A→B present, a connection A→C from
    the same output port is rejected although no edge with the identical
    (source, target, sourceHandle, targetHandle) tuple exists. *)
Lemma canConnect_rejects_without_duplicate :
  canConnect "A" None "C" None [simpleEdge "A" "B"] = false
  ∧ ¬ ∃ e, e ∈ [simpleEdge "A" "B"] ∧ SameConnection "A" None "C" None e.
Proof.
  split; [by vm_compute|].
  intros (e & ->%list_elem_of_singleton & _ & Ht & _). discriminate Ht.
Qed.

(** C6, amended. [canConnect] is [false] when the edge list already holds an
    edge with the identical (source, target, sourceHandle, targetHandle)
    tuple; it is [true] exactly when sourceNodeId differs from targetNodeId
    and no existing edge leaves the same (source, sourceHandle) port. *)
Theorem canConnect_duplicate_rejected s sh t th edges :
  ((∃ e, e ∈ edges ∧ SameConnection s sh t th e) →
   canConnect s sh t th edges = false)
  ∧ (canConnect s sh t th edges = true
     ↔ s ≠ t ∧ ¬ ∃ e, e ∈ edges ∧ source e = s ∧ sourceHandle e = sh).
Proof.
  split; [|apply canConnect_true_iff].
  intros (e & He & Hd). apply canConnect_false_iff. right.
  exists e. split; [done|]. by apply sameConnection_port in Hd.
Qed.

Lemma canConnect_duplicate_rejected_witness :
  canConnect "A" None "B" None [simpleEdge "A" "B"] = false.
Proof.
  apply (proj1 (canConnect_duplicate_rejected "A" None "B" None [simpleEdge "A" "B"])).
  exists (simpleEdge "A" "B"). split; [left|]. repeat split.
Defined.

(** C7. [canConnect] is [false] whenever the source node is the target
    node, for every pair of handles and every edge list. *)
Theorem canConnect_self_loop s sh th edges :
  canConnect s sh s th edges = false.
Proof. apply canConnect_false_iff. by left. Qed.

(** ** The cycle detector: depth-first traversal *)

(** A non-empty path starts with a step. *)
Lemma tc_head {A} (R : relation A) (u v : A) :
  tc R u v → ∃ w, R u w ∧ rtc R w v.
Proof.
  intros Ht. destruct Ht as [x y Hxy|x y z Hxy Hyz].
  - exists y. split; [done|reflexivity].
  - exists y. split; [done|]. by apply tc_rtc.
Qed.

Lemma tc_mono {A} (R1 R2 : relation A) x y :
  (∀ a b, R1 a b → R2 a b) → tc R1 x y → tc R2 x y.
Proof. intros Hsub. apply (tc_congruence (λ a, a)), Hsub. Qed.

Section Traversal.

Variable rt : Runtime.
Variable adj : Dictionary.
(** Every id the traversal can reach. *)
Variable universe : gset string.
Hypothesis arc_universe : ∀ u v, arc rt adj u v → v ∈ universe.

Lemma finished_rtc st u v :
  Inv rt adj st → finished st u → rtc (arc rt adj) u v → finished st v.
Proof.
  intros HI Hu Hr. induction Hr as [|x y z Hxy _ IH]; [done|].
  apply IH. by eapply inv_closed.
Qed.

Lemma tc_first_step (u v : string) :
  tc (arc rt adj) u v → ∃ w, arc rt adj u w ∧ rtc (arc rt adj) w v.
Proof. apply tc_head. Qed.

Lemma size_unvisited_mono (V V' : gset string) :
  V ⊆ V' → size (universe ∖ V') ≤ size (universe ∖ V).
Proof. intros HV. apply subseteq_size. set_solver. Qed.

Lemma size_unvisited_step (V : gset string) u fuel :
  u ∈ universe → u ∉ V → size (universe ∖ V) ≤ S fuel →
  size (universe ∖ ({[u]} ∪ V)) ≤ fuel.
Proof.
  intros HU HV Hsize.
  assert (size (universe ∖ ({[u]} ∪ V)) < size (universe ∖ V)); [|lia].
  apply subset_size. split; [set_solver|].
  intros Hsub. assert (u ∈ universe ∖ ({[u]} ∪ V)) by set_solver. set_solver.
Qed.

(** Marking a fresh node visited and pushing it on the stack. *)
Lemma Inv_enter st u :
  Inv rt adj st → u ∉ visited st →
  Inv rt adj {| visited := {[u]} ∪ visited st;
                recursionStack := {[u]} ∪ recursionStack st |}.
Proof.
  intros [Hs Hc Ha] Hu.
  assert (Hfin : ∀ w, finished {| visited := {[u]} ∪ visited st;
                                  recursionStack := {[u]} ∪ recursionStack st |} w
                      ↔ finished st w).
  { intros w. unfold finished; simpl. set_solver. }
  constructor; simpl.
  - set_solver.
  - intros x y Hx Hxy. apply Hfin. apply Hfin in Hx. eauto.
  - intros x Hx. apply Hfin in Hx. eauto.
Qed.

(** Popping a node all of whose neighbours are finished. *)
Lemma Inv_leave st u :
  Inv rt adj st → u ∈ recursionStack st →
  (∀ v, arc rt adj u v → finished st v) →
  Inv rt adj {| visited := visited st;
                recursionStack := recursionStack st ∖ {[u]} |}.
Proof.
  intros HI Hu Hn. pose proof HI as [Hs Hc Ha].
  assert (Hfin : ∀ w, finished {| visited := visited st;
                                  recursionStack := recursionStack st ∖ {[u]} |} w
                      ↔ finished st w ∨ w = u).
  { intros w. unfold finished; simpl. split.
    - intros [Hv Hns]. destruct (decide (w = u)); [by right|left]. set_solver.
    - intros [[Hv Hns]| ->]; set_solver. }
  constructor; simpl.
  - set_solver.
  - intros x y Hx Hxy. apply Hfin. left. apply Hfin in Hx as [Hx| ->]; eauto.
  - intros x Hx Hcyc. apply Hfin in Hx as [Hx| ->]; [by eapply Ha|].
    apply tc_first_step in Hcyc as (w & Huw & Hwu).
    assert (Hfu : finished st u) by (eapply finished_rtc; eauto).
    destruct Hfu as [_ Hfu]. done.
Qed.

Lemma forNeighbors_spec rec fuel u :
  CallSpec rt adj universe rec fuel →
  ∀ neighbors st,
    Inv rt adj st → u ∈ recursionStack st →
    (∀ w, w ∈ recursionStack st → rtc (arc rt adj) w u) →
    (∀ v, v ∈ neighbors → arc rt adj u v) →
    size (universe ∖ visited st) ≤ fuel →
    ∃ r, forNeighbors rec neighbors st = Some r
         ∧ (Iterable rt adj universe → ∃ b st', r = Returned (b, st'))
         ∧ ∀ b st', r = Returned (b, st') →
             Post rt adj st b st'
             ∧ (b = false → ∀ v, v ∈ neighbors → finished st' v).
Proof.
  intros Hrec. induction neighbors as [|n rest IH]; intros st HI Hu Hpath Harc Hsize.
  { exists (Returned (false, st)). simpl. split; [done|]. split; [eauto|].
    intros b st' [= <- <-]. split; [by split|].
    intros _ v Hv. by apply elem_of_nil in Hv. }
  assert (Hun : arc rt adj u n) by (apply Harc; left).
  assert (Hrest : ∀ v, v ∈ rest → arc rt adj u v)
    by (intros v Hv; apply Harc; by right).
  simpl. case_bool_decide as Hvis.
  - destruct (Hrec n st) as (r1 & -> & Hit1 & Hpost1); eauto.
    { intros w Hw. eapply rtc_r; eauto. }
    destruct r1 as [[[|] st1]|e].
    + exists (Returned (true, st1)). split; [done|]. split; [eauto|].
      intros b st' [= <- <-]. destruct (Hpost1 true st1 eq_refl) as [HP _].
      split; [done|discriminate].
    + destruct (Hpost1 false st1 eq_refl) as [(HI1 & Hst1 & Hv1) Hn].
      specialize (Hn eq_refl).
      destruct (IH st1) as (r2 & -> & Hit2 & Hpost2); auto.
      { by rewrite Hst1. }
      { intros w Hw. apply Hpath. by rewrite <- Hst1. }
      { pose proof (size_unvisited_mono _ _ Hv1). lia. }
      exists r2. split; [done|]. split; [done|].
      intros b st' ->. destruct (Hpost2 b st' eq_refl) as [HP2 Hall].
      destruct b.
      * split; [done|discriminate].
      * destruct HP2 as (HI2 & Hst2 & Hv2). split.
        { split; [done|]. split; [congruence|set_solver]. }
        intros _ v [->|Hv]%elem_of_cons; [|by apply Hall].
        split; [set_solver|]. rewrite Hst2, Hst1.
        pose proof (inv_stack _ _ _ HI). set_solver.
    + exists (Thrown e). split; [done|]. split.
      * intros Hit. destruct (Hit1 Hit) as (b & st' & [=]).
      * intros b st' [=].
  - case_bool_decide as Hstk.
    + exists (Returned (true, st)). split; [done|]. split; [eauto|].
      intros b st' [= <- <-]. split; [|discriminate].
      exists n. eapply tc_rtc_l; [by apply Hpath|by apply tc_once].
    + destruct (IH st) as (r2 & -> & Hit2 & Hpost2); auto.
      exists r2. split; [done|]. split; [done|].
      intros b st' ->. destruct (Hpost2 b st' eq_refl) as [HP2 Hall].
      split; [done|].
      intros -> v [->|Hv]%elem_of_cons; [|by apply Hall].
      destruct HP2 as (HI2 & Hst2 & Hv2). split; [set_solver|by rewrite Hst2].
Qed.

Lemma hasCycle_spec fuel : CallSpec rt adj universe (hasCycle fuel rt adj) fuel.
Proof.
  induction fuel as [|fuel IH]; intros u st HI Hu HU Hsize Hpath.
  { exfalso. assert (u ∈ universe ∖ visited st) as Hin by set_solver.
    assert (size (universe ∖ visited st) = 0) as Hz%size_empty_inv by lia.
    set_solver. }
  simpl.
  set (st1 := {| visited := {[u]} ∪ visited st;
                 recursionStack := {[u]} ∪ recursionStack st |}).
  destruct (neighborsOf rt adj u) as [neighbors|e] eqn:Hnb.
  2:{ exists (Thrown e). split; [done|]. split.
      - intros Hit. destruct (Hit u HU) as (ns & Hns). congruence.
      - intros b st' [=]. }
  destruct (forNeighbors_spec (hasCycle fuel rt adj) fuel u IH neighbors st1)
    as (r & -> & Hit & Hpost).
  - by apply Inv_enter.
  - simpl. set_solver.
  - simpl. intros w [->%elem_of_singleton|Hw]%elem_of_union; [reflexivity|auto].
  - intros v Hv. exists neighbors. by split.
  - simpl. by apply size_unvisited_step.
  - destruct r as [[[|] st2]|e].
    + exists (Returned (true, st2)). split; [done|]. split; [eauto|].
      intros b st' [= <- <-]. destruct (Hpost true st2 eq_refl) as [HP _].
      split; [done|discriminate].
    + destruct (Hpost false st2 eq_refl) as [(HI2 & Hst2 & Hv2) Hall].
      simpl in Hst2, Hv2. specialize (Hall eq_refl).
      eexists. split; [done|]. split; [eauto|].
      intros b st' [= <- <-]. split.
      * split; [|split]; simpl.
        -- apply Inv_leave; [done|rewrite Hst2; set_solver|].
           intros v (ns & Hns & Hv). apply Hall. congruence.
        -- rewrite Hst2. pose proof (inv_stack _ _ _ HI). set_solver.
        -- set_solver.
      * intros _. simpl. set_solver.
    + exists (Thrown e). split; [done|]. split.
      * intros Hit'. destruct (Hit Hit') as (b & st' & [=]).
      * intros b st' [=].
Qed.

Lemma Inv_initial : Inv rt adj {| visited := ∅; recursionStack := ∅ |}.
Proof.
  constructor; simpl; [done| |]; intros u; unfold finished; simpl; set_solver.
Qed.

Lemma forNodes_spec fuel :
  ∀ nodeIds st,
    Inv rt adj st → recursionStack st = ∅ →
    (∀ i, i ∈ nodeIds → i ∈ universe) →
    size (universe ∖ visited st) ≤ fuel →
    ∃ r, forNodes fuel rt adj nodeIds st = Some r
         ∧ (Iterable rt adj universe → ∃ b st', r = Returned (b, st'))
         ∧ ∀ b st', r = Returned (b, st') →
             Post rt adj st b st'
             ∧ (b = false → ∀ i, i ∈ nodeIds → i ∈ visited st').
Proof.
  induction nodeIds as [|n rest IH]; intros st HI Hstk HU Hsize.
  { exists (Returned (false, st)). simpl. split; [done|]. split; [eauto|].
    intros b st' [= <- <-]. split; [by split|].
    intros _ i Hi. by apply elem_of_nil in Hi. }
  assert (Hrest : ∀ i, i ∈ rest → i ∈ universe)
    by (intros i Hi; apply HU; by right).
  simpl. case_bool_decide as Hvis.
  - destruct (hasCycle_spec fuel n st) as (r1 & -> & Hit1 & Hpost1); auto.
    { apply HU. left. }
    { intros w Hw. rewrite Hstk in Hw. set_solver. }
    destruct r1 as [[[|] st1]|e].
    + exists (Returned (true, st1)). split; [done|]. split; [eauto|].
      intros b st' [= <- <-]. destruct (Hpost1 true st1 eq_refl) as [HP _].
      split; [done|discriminate].
    + destruct (Hpost1 false st1 eq_refl) as [(HI1 & Hst1 & Hv1) Hn].
      specialize (Hn eq_refl).
      destruct (IH st1) as (r2 & -> & Hit2 & Hpost2); auto.
      { congruence. }
      { pose proof (size_unvisited_mono _ _ Hv1). lia. }
      exists r2. split; [done|]. split; [done|].
      intros b st' ->. destruct (Hpost2 b st' eq_refl) as [HP2 Hall].
      destruct b.
      * split; [done|discriminate].
      * destruct HP2 as (HI2 & Hst2 & Hv2). split.
        { split; [done|]. split; [congruence|set_solver]. }
        intros _ i [->|Hi]%elem_of_cons; [set_solver|by apply Hall].
    + exists (Thrown e). split; [done|]. split.
      * intros Hit. destruct (Hit1 Hit) as (b & st' & [=]).
      * intros b st' [=].
  - destruct (IH st) as (r2 & -> & Hit2 & Hpost2); auto.
    exists r2. split; [done|]. split; [done|].
    intros b st' ->. destruct (Hpost2 b st' eq_refl) as [HP2 Hall].
    split; [done|].
    intros -> i [->|Hi]%elem_of_cons; [|by apply Hall].
    destruct HP2 as (_ & _ & Hv2). set_solver.
Qed.

(** The whole traversal ends.  It returns when every key it can reach is
    iterable; [true] is returned only with a cycle of traversal edges, and
    [false] only when no node id lies on one. *)
Lemma traversal_result fuel nodeIds :
  (∀ i, i ∈ nodeIds → i ∈ universe) →
  size universe ≤ fuel →
  ∃ r, forNodes fuel rt adj nodeIds {| visited := ∅; recursionStack := ∅ |}
       = Some r
       ∧ (Iterable rt adj universe → ∃ b st', r = Returned (b, st'))
       ∧ ∀ b st', r = Returned (b, st') →
           (b = true → ∃ c, tc (arc rt adj) c c)
           ∧ (b = false → ∀ c, c ∈ nodeIds → ¬ tc (arc rt adj) c c).
Proof.
  intros HU Hsize.
  destruct (forNodes_spec fuel nodeIds {| visited := ∅; recursionStack := ∅ |})
    as (r & Hrun & Hit & Hpost); auto using Inv_initial.
  { simpl.
    assert (size (universe ∖ ∅) ≤ size universe) by (apply subseteq_size; set_solver).
    lia. }
  exists r. split; [done|]. split; [done|].
  intros b st' ->. destruct (Hpost b st' eq_refl) as [HP Hall]. split.
  - by intros ->.
  - intros -> c Hc Hcyc. specialize (Hall eq_refl).
    destruct HP as (HI & Hstk & _). simpl in Hstk.
    apply (inv_acyclic _ _ _ HI c); [|done].
    split; [by apply Hall|]. rewrite Hstk. set_solver.
Qed.

End Traversal.

(** ** The cycle detector: the adjacency list and the flow graph *)

Section Adjacency.

Variable rt : Runtime.

(** The targets of the edges that leave [u], in edge order. *)
Let targetsFrom (u : string) (edges : list CustomEdge) : list string :=
  target <$> filter (λ e, source e = u) edges.

Lemma isMember_elem_of key names : isMember key names = true ↔ key ∈ names.
Proof.
  unfold isMember. rewrite existsb_exists. split.
  - intros (x & Hx%list_elem_of_In & ->%String.eqb_eq). done.
  - intros Hk. exists key. split; [by apply list_elem_of_In|apply String.eqb_refl].
Qed.

Lemma arrayElement_elem_of key index items s :
  arrayElement key index items = Some s → s ∈ items.
Proof.
  revert index. induction items as [|x items IH]; intros index; simpl; [done|].
  destruct (String.eqb key (JS.numberToString index)).
  - intros [= ->]. left.
  - intros H. right. eauto.
Qed.

Lemma initAdjacency_own nodeIds u :
  own (initAdjacency nodeIds) !! u
  = if decide (u ∈ nodeIds ∧ u ≠ "__proto__") then Some [] else None.
Proof.
  unfold initAdjacency.
  assert (Hgen : ∀ d : Dictionary,
    own (foldl assignEmptyArray d nodeIds) !! u
    = if decide (u ∈ nodeIds ∧ u ≠ "__proto__") then Some [] else own d !! u).
  { induction nodeIds as [|i ids IH]; intros d.
    - case_decide as H; [|done]. by destruct H as [?%elem_of_nil _].
    - cbn [foldl]. rewrite IH. unfold assignEmptyArray.
      destruct (decide (u ∈ ids ∧ u ≠ "__proto__")) as [[Hin Hne]|Hnin].
      + rewrite decide_True; [done|]. split; [by right|done].
      + destruct (String.eqb_spec i "__proto__") as [->|Hi]; cbn [own].
        * rewrite decide_False; [done|].
          intros [[->|?]%elem_of_cons ?]; [done|]. by apply Hnin.
        * destruct (decide (i = u)) as [->|Hiu].
          -- rewrite lookup_insert_eq. rewrite decide_True; [done|].
             split; [left|done].
          -- rewrite lookup_insert_ne by done. rewrite decide_False; [done|].
             intros [[->|?]%elem_of_cons ?]; [done|]. by apply Hnin. }
  rewrite Hgen. simpl. rewrite lookup_empty. by case_decide.
Qed.

Lemma initAdjacency_prototype nodeIds :
  prototypeArray (initAdjacency nodeIds)
  = if decide ("__proto__" ∈ nodeIds) then Some [] else None.
Proof.
  unfold initAdjacency.
  assert (Hgen : ∀ d : Dictionary,
    prototypeArray (foldl assignEmptyArray d nodeIds)
    = if decide ("__proto__" ∈ nodeIds) then Some [] else prototypeArray d).
  { induction nodeIds as [|i ids IH]; intros d.
    { case_decide as H; [|done]. by apply elem_of_nil in H. }
    cbn [foldl]. rewrite IH. unfold assignEmptyArray.
    destruct (decide ("__proto__" ∈ ids)) as [Hin|Hnin].
    - rewrite decide_True; [done|]. by right.
    - destruct (String.eqb_spec i "__proto__") as [->|Hi];
        cbn [prototypeArray].
      + rewrite decide_True; [done|]. left.
      + rewrite decide_False; [done|]. intros [?|?]%elem_of_cons; congruence. }
  by rewrite Hgen.
Qed.

(** What one edge does to the dictionary when the call does not throw. *)
Lemma addEdge_returned d e d' :
  addEdge rt d e = Returned d' →
  (∀ u, own d' !! u
        = (λ targets : list string,
             if decide (source e = u) then JS.push targets (target e)
             else targets) <$> (own d !! u))
  ∧ (own d !! "__proto__" = None →
     prototypeArray d'
     = (λ targets : list string,
          if decide (source e = "__proto__") then JS.push targets (target e)
          else targets) <$> prototypeArray d).
Proof.
  unfold addEdge, getMember.
  destruct (own d !! source e) as [ts|] eqn:Eown.
  { intros [= <-]. cbn [own prototypeArray]. split.
    - intros u. destruct (decide (source e = u)) as [<-|Hne].
      + by rewrite lookup_insert_eq, Eown.
      + rewrite lookup_insert_ne by done. by destruct (own d !! u).
    - intros Hnone.
      destruct (decide (source e = "__proto__")) as [Heq|_]; [congruence|].
      by destruct (prototypeArray d). }
  assert (Hown : ∀ u, own d !! u
    = (λ targets : list string,
         if decide (source e = u) then JS.push targets (target e)
         else targets) <$> (own d !! u)).
  { intros u. destruct (decide (source e = u)) as [<-|Hne].
    - by rewrite Eown.
    - by destruct (own d !! u). }
  destruct (String.eqb_spec (source e) "__proto__") as [Hs|Hs].
  { destruct (prototypeArray d) as [P|] eqn:EP; [|discriminate].
    intros [= <-]. cbn [own prototypeArray]. split; [done|].
    intros _. by destruct (decide (source e = "__proto__")). }
  assert (Hproto : prototypeArray d
    = (λ targets : list string,
         if decide (source e = "__proto__") then JS.push targets (target e)
         else targets) <$> prototypeArray d).
  { destruct (decide (source e = "__proto__")); [done|].
    by destruct (prototypeArray d). }
  destruct (prototypeArray d) as [P|] eqn:EP.
  - destruct (String.eqb (source e) "length").
    { destruct (Nat.eqb (length P) 0); [|discriminate]. intros [= <-].
      split; [done|]. intros _. by rewrite EP. }
    destruct (arrayElement (source e) 0 P) as [s|].
    { destruct (String.eqb s ""); [|discriminate]. intros [= <-].
      split; [done|]. intros _. by rewrite EP. }
    destruct (isMember _ _ || isMember _ _); [discriminate|].
    intros [= <-]. split; [done|]. intros _. by rewrite EP.
  - destruct (isMember _ _); [discriminate|].
    intros [= <-]. split; [done|]. intros _. by rewrite EP.
Qed.

Lemma addEdges_returned edges d d' :
  addEdges rt d edges = Returned d' →
  own d !! "__proto__" = None →
  (∀ u, own d' !! u
        = (λ targets : list string, (targets ++ targetsFrom u edges)%list)
            <$> (own d !! u))
  ∧ prototypeArray d'
    = (λ targets : list string, (targets ++ targetsFrom "__proto__" edges)%list)
        <$> prototypeArray d.
Proof.
  unfold targetsFrom. revert d.
  induction edges as [|e edges IH]; intros d; simpl.
  - intros [= <-] _. split.
    + intros u. destruct (own d !! u); simpl; [|done]. by rewrite app_nil_r.
    + destruct (prototypeArray d); simpl; [|done]. by rewrite app_nil_r.
  - destruct (addEdge rt d e) as [d1|] eqn:E1; [|discriminate].
    intros Hrest Hnone.
    destruct (addEdge_returned d e d1 E1) as [Hown1 Hproto1].
    specialize (Hproto1 Hnone).
    destruct (IH d1 Hrest) as [Hown Hproto].
    { by rewrite Hown1, Hnone. }
    split.
    + intros u. rewrite Hown, Hown1, filter_cons. unfold JS.push.
      destruct (own d !! u) as [ts|]; [|done].
      destruct (decide (source e = u)); simpl; [|done].
      by rewrite <- app_assoc.
    + rewrite Hproto, Hproto1, filter_cons. unfold JS.push.
      destruct (prototypeArray d) as [ts|]; [|done].
      destruct (decide (source e = "__proto__")); simpl; [|done].
      by rewrite <- app_assoc.
Qed.

(** The adjacency list the source builds when building does not throw: one
    own entry per node id other than [__proto__], holding the targets of
    the edges that leave it, in edge order; and, when a node is called
    [__proto__], an array as prototype that holds the targets of the edges
    that leave that node. *)
Lemma buildAdjacency_returned nodeIds edges d :
  buildAdjacency rt nodeIds edges = Returned d →
  (∀ u, own d !! u
        = if decide (u ∈ nodeIds ∧ u ≠ "__proto__")
          then Some (targetsFrom u edges) else None)
  ∧ prototypeArray d
    = if decide ("__proto__" ∈ nodeIds)
      then Some (targetsFrom "__proto__" edges) else None.
Proof.
  unfold buildAdjacency. intros Hb.
  destruct (addEdges_returned edges _ d Hb) as [Hown Hproto].
  { rewrite initAdjacency_own. rewrite decide_False; [done|]. by intros [_ ?]. }
  split.
  - intros u. rewrite Hown, initAdjacency_own. by case_decide.
  - rewrite Hproto, initAdjacency_prototype. by case_decide.
Qed.

(** Building returns when the prototype is untouched and every edge leaves
    an own key or a key [Object.prototype] has nothing for. *)
Lemma addEdges_returns edges d :
  prototypeArray d = None →
  (∀ e, e ∈ edges → is_Some (own d !! source e) ∨ ¬ inheritedKey rt (source e)) →
  ∃ d', addEdges rt d edges = Returned d'.
Proof.
  revert d. induction edges as [|e edges IH]; intros d Hproto Hsafe; simpl.
  { eauto. }
  assert (He : is_Some (own d !! source e) ∨ ¬ inheritedKey rt (source e))
    by (apply Hsafe; left).
  assert (∃ d1, addEdge rt d e = Returned d1 ∧ prototypeArray d1 = None
                ∧ ∀ k, is_Some (own d !! k) → is_Some (own d1 !! k))
    as (d1 & -> & Hproto1 & Hkeys).
  { unfold addEdge, getMember.
    destruct (own d !! source e) as [ts|] eqn:Eown.
    - eexists. split; [done|]. split; [done|]. simpl. intros k Hk.
      destruct (decide (source e = k)) as [<-|Hne].
      + rewrite lookup_insert_eq. eauto.
      + by rewrite lookup_insert_ne.
    - destruct He as [[? [=]]|Hni].
      destruct (String.eqb_spec (source e) "__proto__") as [Hs|Hs].
      { destruct Hni. by left. }
      rewrite Hproto.
      destruct (isMember (source e) (objectPrototypeMembers rt)) eqn:Em.
      { destruct Hni. right. by apply isMember_elem_of. }
      eauto. }
  apply IH; [done|]. intros e' He'.
  destruct (Hsafe e') as [?|?]; [by right|left; auto|by right].
Qed.

Lemma ordinary_build_returns nodes edges :
  OrdinaryKeys rt nodes edges →
  ∃ d, buildAdjacency rt (id <$> nodes) edges = Returned d.
Proof.
  intros [Hproto Hedges]. unfold buildAdjacency. apply addEdges_returns.
  - rewrite initAdjacency_prototype. by rewrite decide_False.
  - intros e He. destruct (Hedges e He) as [[Hs|Hs] _]; [left|by right].
    rewrite initAdjacency_own. rewrite decide_True; [eauto|].
    split; [done|]. intros Heq. by rewrite Heq in Hs.
Qed.

Section Built.

Variable nodes : list CustomNode.
Variable edges : list CustomEdge.
Variable d : Dictionary.
Hypothesis built : buildAdjacency rt (id <$> nodes) edges = Returned d.

Lemma elem_of_targetsFrom u v :
  v ∈ targetsFrom u edges ↔ ∃ e, e ∈ edges ∧ source e = u ∧ target e = v.
Proof.
  unfold targetsFrom. rewrite list_elem_of_fmap. split.
  - intros (e & -> & [Hs He]%list_elem_of_filter). eauto.
  - intros (e & He & Hs & <-). exists e. split; [done|].
    by apply list_elem_of_filter.
Qed.

(** Every arc of the flow graph is a traversal edge. *)
Lemma flowArc_arc u v : flowArc nodes edges u v → arc rt d u v.
Proof.
  intros (Hu & _ & He). destruct (buildAdjacency_returned _ _ _ built) as [Hown Hproto].
  exists (targetsFrom u edges). split; [|by apply elem_of_targetsFrom].
  unfold neighborsOf, getMember. rewrite Hown.
  destruct (decide (u = "__proto__")) as [->|Hne].
  - rewrite decide_False by (by intros [_ ?]). simpl.
    rewrite Hproto. by rewrite decide_True.
  - by rewrite decide_True.
Qed.

(** Without a node called [__proto__] the traversal edges are the edges
    that leave node ids. *)
Lemma arc_ordinary u v :
  "__proto__" ∉ (id <$> nodes) →
  arc rt d u v → u ∈ (id <$> nodes) ∧ ∃ e, e ∈ edges ∧ source e = u ∧ target e = v.
Proof.
  intros Hnp (ns & Hns & Hv).
  destruct (buildAdjacency_returned _ _ _ built) as [Hown Hproto].
  rewrite decide_False in Hproto by done.
  unfold neighborsOf, getMember in Hns. rewrite Hown, Hproto in Hns.
  case_decide as Hu.
  - injection Hns as <-. split; [tauto|]. by apply elem_of_targetsFrom.
  - destruct (String.eqb u "__proto__"); [discriminate|].
    destruct (isMember u (objectPrototypeMembers rt)); [discriminate|].
    injection Hns as <-. by apply elem_of_nil in Hv.
Qed.

Lemma elem_of_characters (c s : string) :
  s ∈ (target <$> edges) → c ∈ characters s →
  c ∈ mjoin ((characters ∘ target) <$> edges).
Proof.
  intros (e & -> & He)%list_elem_of_fmap Hc.
  apply list_elem_of_join. exists (characters (target e)). split; [done|].
  apply list_elem_of_fmap. exists e. by split.
Qed.

(** Whatever the keys, a traversal edge leads to a node id, an edge target
    or a character of one. *)
Lemma arc_reachable u v :
  arc rt d u v → v ∈ reachableIds (id <$> nodes) edges.
Proof.
  intros (ns & Hns & Hv).
  destruct (buildAdjacency_returned _ _ _ built) as [Hown Hproto].
  assert (Htarget : ∀ w x, x ∈ targetsFrom w edges → x ∈ (target <$> edges)).
  { intros w x (e & He & _ & <-)%elem_of_targetsFrom.
    apply list_elem_of_fmap. eauto. }
  unfold reachableIds.
  unfold neighborsOf, getMember in Hns. rewrite Hown, Hproto in Hns.
  destruct (decide (u ∈ id <$> nodes ∧ u ≠ "__proto__")) as [Hu|Hu].
  { injection Hns as <-. apply elem_of_union_l, elem_of_union_r.
    apply elem_of_list_to_set. eauto. }
  destruct (decide ("__proto__" ∈ id <$> nodes)) as [Hp|Hp].
  - destruct (String.eqb u "__proto__").
    { injection Hns as <-.
      apply elem_of_union_l, elem_of_union_r, elem_of_list_to_set. eauto. }
    destruct (String.eqb u "length").
    { destruct (Nat.eqb _ 0); [|discriminate]. injection Hns as <-.
      by apply elem_of_nil in Hv. }
    destruct (arrayElement u 0 _) as [s|] eqn:Es.
    { injection Hns as <-. apply arrayElement_elem_of in Es.
      apply elem_of_union_r, elem_of_list_to_set.
      eapply elem_of_characters; eauto. }
    destruct (isMember _ _ || isMember _ _); [discriminate|].
    injection Hns as <-. by apply elem_of_nil in Hv.
  - destruct (String.eqb u "__proto__"); [discriminate|].
    destruct (isMember _ _); [discriminate|].
    injection Hns as <-. by apply elem_of_nil in Hv.
Qed.

(** With ordinary keys no node id and no edge target makes the loop header
    throw. *)
Lemma ordinary_iterable :
  OrdinaryKeys rt nodes edges →
  Iterable rt d (list_to_set (id <$> nodes) ∪ list_to_set (target <$> edges)).
Proof.
  intros [Hnp Hedges] u Hu.
  destruct (buildAdjacency_returned _ _ _ built) as [Hown Hproto].
  rewrite decide_False in Hproto by done.
  unfold neighborsOf, getMember. rewrite Hown, Hproto.
  case_decide as Hid; [eauto|].
  assert (Hnid : u ∉ (id <$> nodes)).
  { intros Hin. apply Hid. split; [done|]. by intros ->. }
  apply elem_of_union in Hu as [Hu%elem_of_list_to_set|Hu%elem_of_list_to_set];
    [done|].
  apply list_elem_of_fmap in Hu as (e & -> & He).
  destruct (Hedges e He) as [_ [?|Hni]]; [done|].
  destruct (String.eqb_spec (target e) "__proto__") as [Ht|Ht].
  { destruct Hni. by left. }
  destruct (isMember (target e) (objectPrototypeMembers rt)) eqn:Em; [|eauto].
  destruct Hni. right. by apply isMember_elem_of.
Qed.

End Built.

Lemma size_list_to_set_le (l : list string) :
  size (list_to_set l : gset string) ≤ length l.
Proof.
  induction l as [|x l IH].
  - by rewrite list_to_set_nil, size_empty.
  - rewrite list_to_set_cons, size_union_alt, size_singleton. simpl.
    assert (size (list_to_set l ∖ {[x]} : gset string)
            ≤ size (list_to_set l : gset string)).
    { apply subseteq_size. set_solver. }
    lia.
Qed.

Lemma size_union_le (X Y : gset string) : size (X ∪ Y) ≤ size X + size Y.
Proof.
  rewrite size_union_alt.
  assert (size (Y ∖ X) ≤ size Y) by (apply subseteq_size; set_solver). lia.
Qed.

Lemma size_reachableIds nodeIds edges :
  size (reachableIds nodeIds edges) < dfsFuel nodeIds edges.
Proof.
  unfold reachableIds, dfsFuel.
  pose proof (size_union_le (list_to_set nodeIds ∪ list_to_set (target <$> edges))
                (list_to_set (mjoin ((characters ∘ target) <$> edges)))).
  pose proof (size_union_le (list_to_set nodeIds) (list_to_set (target <$> edges))).
  pose proof (size_list_to_set_le nodeIds).
  pose proof (size_list_to_set_le (target <$> edges)) as Ht.
  pose proof (size_list_to_set_le (mjoin ((characters ∘ target) <$> edges))).
  rewrite length_fmap in Ht. lia.
Qed.

Lemma size_ordinaryIds nodeIds edges :
  size (list_to_set nodeIds ∪ list_to_set (target <$> edges) : gset string)
  < dfsFuel nodeIds edges.
Proof.
  unfold dfsFuel.
  pose proof (size_union_le (list_to_set nodeIds) (list_to_set (target <$> edges))).
  pose proof (size_list_to_set_le nodeIds).
  pose proof (size_list_to_set_le (target <$> edges)) as Ht.
  rewrite length_fmap in Ht. lia.
Qed.

End Adjacency.

Section FlowGraph.

Variable rt : Runtime.
Variable nodes : list CustomNode.
Variable edges : list CustomEdge.

(** The call ends, by returning or by throwing: the fuel [hasFlowCycles]
    starts with is never used up. *)
Lemma hasFlowCycles_ends : ∃ r, hasFlowCycles rt nodes edges = Some r.
Proof.
  unfold hasFlowCycles, runFlowCycles.
  destruct (buildAdjacency rt (id <$> nodes) edges) as [d|e] eqn:Hb; [|eauto].
  destruct (traversal_result rt d (reachableIds (id <$> nodes) edges)
              (arc_reachable rt nodes edges d Hb)
              (dfsFuel (id <$> nodes) edges) (id <$> nodes))
    as (r & -> & _ & _).
  - intros i Hi. unfold reachableIds.
    by apply elem_of_union_l, elem_of_union_l, elem_of_list_to_set.
  - pose proof (size_reachableIds (id <$> nodes) edges). lia.
  - destruct r as [[b st]|e]; eauto.
Qed.

(** What a returned answer says about the traversal edges. *)
Lemma hasFlowCycles_returned b :
  hasFlowCycles rt nodes edges = Some (Returned b) →
  ∃ d, buildAdjacency rt (id <$> nodes) edges = Returned d
       ∧ (b = true → ∃ c, tc (arc rt d) c c)
       ∧ (b = false → ∀ c, c ∈ (id <$> nodes) → ¬ tc (arc rt d) c c).
Proof.
  unfold hasFlowCycles, runFlowCycles.
  destruct (buildAdjacency rt (id <$> nodes) edges) as [d|e] eqn:Hb;
    [|discriminate].
  destruct (traversal_result rt d (reachableIds (id <$> nodes) edges)
              (arc_reachable rt nodes edges d Hb)
              (dfsFuel (id <$> nodes) edges) (id <$> nodes))
    as (r & -> & _ & Hres).
  - intros i Hi. unfold reachableIds.
    by apply elem_of_union_l, elem_of_union_l, elem_of_list_to_set.
  - pose proof (size_reachableIds (id <$> nodes) edges). lia.
  - destruct r as [[b' st]|e]; [|discriminate]. intros [= ->].
    exists d. split; [done|]. by apply (Hres b st).
Qed.

(** An answer [false] is always right: the flow graph has no cycle. *)
Lemma hasFlowCycles_false_acyclic :
  hasFlowCycles rt nodes edges = Some (Returned false) →
  ¬ HasCycle nodes edges.
Proof.
  intros (d & Hb & _ & Hfalse)%hasFlowCycles_returned (c & Hc).
  apply (Hfalse eq_refl c).
  - by apply tc_head in Hc as (w & (Hu & _) & _).
  - eapply tc_mono; [|done]. intros u v. by apply flowArc_arc.
Qed.

(** A path of traversal edges that ends in a node id only passes through
    node ids, when no node is called [__proto__]. *)
Lemma tc_arc_flowArc d u v :
  buildAdjacency rt (id <$> nodes) edges = Returned d →
  "__proto__" ∉ (id <$> nodes) →
  tc (arc rt d) u v → v ∈ (id <$> nodes) → tc (flowArc nodes edges) u v.
Proof.
  intros Hb Hnp Ht Hv. induction Ht as [x y Hxy|x y z Hxy Hyz IH].
  - apply tc_once. eapply arc_ordinary in Hxy as [Hx He]; eauto. by split.
  - eapply tc_l; [|by apply IH].
    apply tc_head in Hyz as (w & Hyw & _).
    eapply arc_ordinary in Hyw as [Hy _]; eauto.
    eapply arc_ordinary in Hxy as [Hx He]; eauto. by split.
Qed.

(** An answer [true] is right when no node is called [__proto__]. *)
Lemma hasFlowCycles_true_cycle :
  "__proto__" ∉ (id <$> nodes) →
  hasFlowCycles rt nodes edges = Some (Returned true) →
  HasCycle nodes edges.
Proof.
  intros Hnp (d & Hb & Htrue & _)%hasFlowCycles_returned.
  destruct (Htrue eq_refl) as (c & Hc). exists c.
  eapply tc_arc_flowArc; eauto.
  apply tc_head in Hc as (w & Hcw & _).
  by eapply arc_ordinary in Hcw as [Hu _]; eauto.
Qed.

(** With ordinary keys the call returns. *)
Lemma hasFlowCycles_returns :
  OrdinaryKeys rt nodes edges →
  ∃ b, hasFlowCycles rt nodes edges = Some (Returned b).
Proof.
  intros Hord. destruct (ordinary_build_returns rt nodes edges Hord) as (d & Hb).
  unfold hasFlowCycles, runFlowCycles. rewrite Hb.
  destruct (traversal_result rt d
              (list_to_set (id <$> nodes) ∪ list_to_set (target <$> edges))
              ltac:(intros u v (_ & e & He & _ & <-)%(arc_ordinary rt nodes edges d Hb);
                    [apply elem_of_union_r, elem_of_list_to_set, list_elem_of_fmap; eauto
                    |apply Hord])
              (dfsFuel (id <$> nodes) edges) (id <$> nodes))
    as (r & -> & Hit & _).
  - intros i Hi. by apply elem_of_union_l, elem_of_list_to_set.
  - pose proof (size_ordinaryIds (id <$> nodes) edges). lia.
  - destruct Hit as (b & st & ->); [by apply ordinary_iterable|]. eauto.
Qed.

(** With ordinary keys [hasFlowCycles] decides whether the flow graph has a
    directed cycle. *)
Lemma hasFlowCycles_decides :
  OrdinaryKeys rt nodes edges →
  ∃ b, hasFlowCycles rt nodes edges = Some (Returned b)
       ∧ (b = true ↔ HasCycle nodes edges).
Proof.
  intros Hord. destruct (hasFlowCycles_returns Hord) as (b & Hb).
  exists b. split; [done|]. destruct b.
  - split; [intros _|done]. apply hasFlowCycles_true_cycle; [apply Hord|done].
  - split; [discriminate|]. intros Hc.
    by apply hasFlowCycles_false_acyclic in Hb.
Qed.

Lemma flowArc_knownEdges u v :
  flowArc nodes (knownEdges nodes edges) u v ↔ flowArc nodes edges u v.
Proof.
  unfold flowArc, knownEdges. split.
  - intros (Hu & Hv & e & [_ He]%list_elem_of_filter & Hs & Ht). eauto 10.
  - intros (Hu & Hv & e & He & <- & <-). repeat split; try done.
    exists e. split; [|done]. by apply list_elem_of_filter.
Qed.

Lemma HasCycle_knownEdges :
  HasCycle nodes (knownEdges nodes edges) ↔ HasCycle nodes edges.
Proof.
  unfold HasCycle. split; intros (c & Hc); exists c;
    (eapply tc_mono; [|done]); intros u v; apply flowArc_knownEdges.
Qed.

Lemma OrdinaryKeys_knownEdges :
  OrdinaryKeys rt nodes edges → OrdinaryKeys rt nodes (knownEdges nodes edges).
Proof.
  intros [Hnp He]. split; [done|].
  intros e [_ Hin]%list_elem_of_filter. by apply He.
Qed.

End FlowGraph.

(** ** Properties of [hasFlowCycles] *)

(** C8. [hasFlowCycles] is meant to return [true] exactly when the graph on
    the node ids, with the edges between node ids as arcs, has a directed
    cycle.  It does not on every input: for the single node A and the edge
    from A to the unknown id toString, a graph without a cycle, the call
    throws a TypeError instead of returning [false], because the dictionary
    object inherits a member of that name. *)
Theorem hasFlowCycles_throws_on_inherited_target :
  hasFlowCycles standardRuntime [textNode "A" None] [simpleEdge "A" "toString"]
  = Some (Thrown TypeError)
  ∧ ¬ HasCycle [textNode "A" None] [simpleEdge "A" "toString"].
Proof.
  split; [by vm_compute|].
  intros (c & Hc). apply tc_head in Hc as (w & (_ & Hw & e & He & _ & <-) & _).
  apply list_elem_of_singleton in He as ->. simpl in Hw.
  by apply list_elem_of_singleton in Hw.
Qed.

(** C9. Edges that reference unknown node ids are meant never to affect the
    cycle check.  One does: for the single node A and the edge from the
    unknown id constructor to A, the sublist of edges between known nodes is
    empty and the call on it returns [false], but the call on the edge list
    itself throws a TypeError, because the guard that skips unknown sources
    takes the inherited member of that name for an adjacency entry. *)
Theorem hasFlowCycles_throws_on_inherited_source :
  knownEdges [textNode "A" None] [simpleEdge "constructor" "A"] = []
  ∧ hasFlowCycles standardRuntime [textNode "A" None] []
    = Some (Returned false)
  ∧ hasFlowCycles standardRuntime [textNode "A" None]
      [simpleEdge "constructor" "A"]
    = Some (Thrown TypeError).
Proof. repeat split; by vm_compute. Qed.

(** ** More on the flow validator *)

Section ValidatorFacts.

Lemma countNodes_ext (P Q : CustomNode → Prop)
    `{!∀ n, Decision (P n)} `{!∀ n, Decision (Q n)} nodes :
  (∀ n, P n ↔ Q n) → countNodes P nodes = countNodes Q nodes.
Proof.
  intros HPQ. apply Nat.le_antisymm; apply countNodes_mono; intros n; apply HPQ.
Qed.

Lemma countNodes_perm (P : CustomNode → Prop) `{!∀ n, Decision (P n)}
    nodes nodes' :
  nodes ≡ₚ nodes' → countNodes P nodes = countNodes P nodes'.
Proof. intros Hp. unfold countNodes. by rewrite Hp. Qed.

Lemma countNodes_le_length (P : CustomNode → Prop) `{!∀ n, Decision (P n)} nodes :
  countNodes P nodes ≤ length nodes.
Proof. apply length_filter. Qed.

(** The nodes that satisfy [P] and those that do not add up to all. *)
Lemma countNodes_split (P : CustomNode → Prop) `{!∀ n, Decision (P n)} nodes :
  countNodes P nodes + countNodes (λ n, ¬ P n) nodes = length nodes.
Proof.
  unfold countNodes. induction nodes as [|n nodes IH]; [done|].
  rewrite !filter_cons. repeat case_decide; simpl; try lia; done.
Qed.

Lemma expectedErrors_nil nodes edges :
  expectedErrors nodes edges = []
  ↔ countNodes (NoIncoming edges) nodes ≤ 1
    ∧ countNodes EmptyText nodes = 0
    ∧ countNodes (Isolated edges) nodes ≤ 1.
Proof.
  unfold expectedErrors. repeat case_decide; simpl; split;
    try discriminate; try lia; done.
Qed.

(** When [validateFlow] accepts a flow. *)
Lemma validateFlow_valid_iff nodes edges :
  isValid (validateFlow nodes edges) = true
  ↔ length nodes ≤ 1
    ∨ (countNodes (NoIncoming edges) nodes ≤ 1
       ∧ countNodes EmptyText nodes = 0
       ∧ countNodes (Isolated edges) nodes ≤ 1).
Proof.
  rewrite validateFlow_unfold. case_decide as Hlen; simpl.
  - split; [by left|done].
  - rewrite bool_decide_eq_true, expectedErrors_nil. split; [by right|].
    intros [?|?]; [lia|done].
Qed.

Lemma NoIncoming_subseteq edges edges' n :
  (∀ e, e ∈ edges → e ∈ edges') → NoIncoming edges' n → NoIncoming edges n.
Proof. unfold NoIncoming. rewrite !Forall_forall. eauto. Qed.

Lemma NoOutgoing_subseteq edges edges' n :
  (∀ e, e ∈ edges → e ∈ edges') → NoOutgoing edges' n → NoOutgoing edges n.
Proof. unfold NoOutgoing. rewrite !Forall_forall. eauto. Qed.

Lemma not_NoIncoming edges n :
  ¬ NoIncoming edges n → id n ∈ (target <$> edges).
Proof.
  intros Hn. apply not_Forall_Exists in Hn; [|apply _].
  apply Exists_exists in Hn as (e & He & Hne). simpl in Hne.
  apply list_elem_of_fmap. exists e. split; [|done].
  destruct (decide (target e = id n)) as [<-|]; [done|]. by destruct Hne.
Qed.

End ValidatorFacts.

(** X1. With more than one node, the isolated-nodes error is among the
    errors exactly when more than one node has neither an incoming nor an
    outgoing edge, and it states the number of such nodes; a single isolated
    node raises no such error. *)
Theorem isolated_error_iff nodes edges :
  1 < length nodes →
  (∀ j, isolatedNodesError j ∈ errors (validateFlow nodes edges)
        ↔ 1 < countNodes (Isolated edges) nodes
          ∧ j = countNodes (Isolated edges) nodes)
  ∧ (countNodes (Isolated edges) nodes ≤ 1 →
     ∀ j, isolatedNodesError j ∉ errors (validateFlow nodes edges)).
Proof.
  intros Hlen. rewrite errors_of_many by done. split.
  - intros j. apply isolatedNodesError_expected.
  - intros Hle j [Hgt _]%isolatedNodesError_expected. lia.
Qed.

Lemma isolated_error_iff_witness :
  (∀ j, isolatedNodesError j ∈ errors (validateFlow looseNodes [])
        ↔ 1 < countNodes (Isolated []) looseNodes
          ∧ j = countNodes (Isolated []) looseNodes)
  ∧ (countNodes (Isolated []) looseNodes ≤ 1 →
     ∀ j, isolatedNodesError j ∉ errors (validateFlow looseNodes [])).
Proof. apply (isolated_error_iff looseNodes []). vm_compute. lia. Defined.

(** X2. The result of [validateFlow] does not depend on the order of the
    nodes, nor on the order or the repetition of the edges. *)
Theorem validateFlow_order_irrelevant nodes nodes' edges edges' :
  nodes ≡ₚ nodes' → (∀ e, e ∈ edges ↔ e ∈ edges') →
  validateFlow nodes edges = validateFlow nodes' edges'.
Proof.
  intros Hn He. rewrite !validateFlow_unfold.
  assert (Hin : ∀ n, NoIncoming edges n ↔ NoIncoming edges' n).
  { intros n. split; apply NoIncoming_subseteq; intros e; apply He. }
  assert (Hout : ∀ n, NoOutgoing edges n ↔ NoOutgoing edges' n).
  { intros n. split; apply NoOutgoing_subseteq; intros e; apply He. }
  assert (Hexp : expectedErrors nodes edges = expectedErrors nodes' edges').
  { unfold expectedErrors.
    rewrite (countNodes_perm _ nodes nodes' Hn).
    rewrite (countNodes_perm EmptyText nodes nodes' Hn).
    rewrite (countNodes_perm (Isolated edges) nodes nodes' Hn).
    rewrite (countNodes_ext (NoIncoming edges) (NoIncoming edges')) by done.
    rewrite (countNodes_ext (Isolated edges) (Isolated edges')); [done|].
    intros n. unfold Isolated. by rewrite Hin, Hout. }
  rewrite Hexp, (Permutation_length Hn). done.
Qed.

Lemma validateFlow_order_irrelevant_witness :
  validateFlow [textNode "A" (Some "hi"); textNode "B" None]
               [simpleEdge "A" "B"; simpleEdge "B" "A"]
  = validateFlow [textNode "B" None; textNode "A" (Some "hi")]
                 [simpleEdge "B" "A"; simpleEdge "A" "B"; simpleEdge "B" "A"].
Proof.
  apply validateFlow_order_irrelevant.
  - apply Permutation_swap.
  - intros e. rewrite !elem_of_cons, !elem_of_nil. tauto.
Defined.

(** X3. Adding edges never invalidates a flow: a flow that [validateFlow]
    accepts is still accepted with any larger edge list. *)
Theorem validateFlow_more_edges nodes edges edges' :
  (∀ e, e ∈ edges → e ∈ edges') →
  isValid (validateFlow nodes edges) = true →
  isValid (validateFlow nodes edges') = true.
Proof.
  intros Hsub. rewrite !validateFlow_valid_iff.
  intros [Hlen|(Hin & Htxt & Hiso)]; [by left|right].
  assert (countNodes (NoIncoming edges') nodes ≤ countNodes (NoIncoming edges) nodes).
  { apply countNodes_mono. intros n. by apply NoIncoming_subseteq. }
  assert (countNodes (Isolated edges') nodes ≤ countNodes (Isolated edges) nodes).
  { apply countNodes_mono. intros n [? ?].
    split; [by eapply NoIncoming_subseteq|by eapply NoOutgoing_subseteq]. }
  repeat split; [lia|done|lia].
Qed.

Lemma validateFlow_more_edges_witness :
  isValid (validateFlow [textNode "A" (Some "hi"); textNode "B" (Some "yo")]
             [simpleEdge "A" "B"; simpleEdge "B" "A"]) = true.
Proof.
  apply (validateFlow_more_edges _ [simpleEdge "A" "B"]).
  - intros e ->%list_elem_of_singleton. left.
  - by vm_compute.
Defined.

(** X4. A flow of [n] nodes with pairwise distinct ids that [validateFlow]
    accepts has at least [n - 1] edges. *)
Theorem valid_flow_edge_count nodes edges :
  NoDup (id <$> nodes) →
  isValid (validateFlow nodes edges) = true →
  length nodes - 1 ≤ length edges.
Proof.
  intros Hnd [Hlen|(Hin & _ & _)]%validateFlow_valid_iff; [lia|].
  pose proof (countNodes_split (NoIncoming edges) nodes) as Hsplit.
  assert (countNodes (λ n, ¬ NoIncoming edges n) nodes ≤ length edges); [|lia].
  unfold countNodes.
  rewrite <- (length_fmap id), <- (length_fmap target edges).
  apply submseteq_length, NoDup_submseteq.
  - eapply sublist_NoDup; [done|]. apply fmap_sublist, sublist_filter.
  - intros i (n & -> & [Hn _]%list_elem_of_filter)%list_elem_of_fmap.
    by apply not_NoIncoming.
Qed.

Lemma valid_flow_edge_count_witness :
  length [textNode "A" (Some "a"); textNode "B" (Some "b"); textNode "C" (Some "c")] - 1
  ≤ length [simpleEdge "A" "B"; simpleEdge "B" "C"].
Proof.
  apply valid_flow_edge_count.
  - vm_compute. repeat constructor; set_solver.
  - by vm_compute.
Defined.

(** ** More on the connection policy *)

Lemma bool_eq_of_iff (a b : bool) : (a = true ↔ b = true) → a = b.
Proof. destruct a, b; intros [H1 H2]; auto; symmetry; auto. Qed.

(** X5. The answer of [canConnect] depends on the target side only through
    the self-loop test, and on the existing edges only through their
    (source, sourceHandle) pairs: the target handle, and the targets, target
    handles and ids of the existing edges, are never decisive. *)
Theorem canConnect_ignores_target_side s sh t t' th th'
    (edges edges' : list CustomEdge) :
  s ≠ t → s ≠ t' →
  (λ e, (source e, sourceHandle e)) <$> edges
  = (λ e, (source e, sourceHandle e)) <$> edges' →
  canConnect s sh t th edges = canConnect s sh t' th' edges'.
Proof.
  intros Ht Ht' Hports. apply bool_eq_of_iff. rewrite !canConnect_true_iff.
  assert (Hiff : ∀ l l' : list CustomEdge,
    (λ e, (source e, sourceHandle e)) <$> l
    = (λ e, (source e, sourceHandle e)) <$> l' →
    (∃ e, e ∈ l ∧ SamePort s sh e) → ∃ e, e ∈ l' ∧ SamePort s sh e).
  { intros l l' Hl (e & He & Hs & Hh).
    assert (Hin : (source e, sourceHandle e)
                  ∈ (λ e, (source e, sourceHandle e)) <$> l').
    { rewrite <- Hl. apply list_elem_of_fmap. eauto. }
    apply list_elem_of_fmap in Hin as (e' & [= Hs' Hh'] & He').
    exists e'. split; [done|]. split; congruence. }
  split; intros [_ Hno]; (split; [done|]); intros Hex; apply Hno;
    eapply Hiff; eauto.
Qed.

Lemma canConnect_ignores_target_side_witness :
  canConnect "A" (Some "source") "B" (Some "target")
    [mkEdge "e1" "C" "B" (Some "source") (Some "target")]
  = canConnect "A" (Some "source") "D" None
      [mkEdge "e2" "C" "A" (Some "source") None].
Proof.
  apply canConnect_ignores_target_side; [discriminate|discriminate|reflexivity].
Defined.

(** X6. Removing edges never blocks a connection: what [canConnect] accepts
    against an edge list it accepts against every smaller one. *)
Theorem canConnect_fewer_edges s sh t th (edges edges' : list CustomEdge) :
  (∀ e, e ∈ edges → e ∈ edges') →
  canConnect s sh t th edges' = true → canConnect s sh t th edges = true.
Proof.
  intros Hsub. rewrite !canConnect_true_iff. intros [Hne Hno].
  split; [done|]. intros (e & He & Hp). apply Hno. eauto.
Qed.

Lemma canConnect_fewer_edges_witness :
  canConnect "A" None "B" None [simpleEdge "C" "B"] = true.
Proof.
  apply (canConnect_fewer_edges _ _ _ _ _ [simpleEdge "C" "B"; simpleEdge "B" "C"]).
  - intros e ->%list_elem_of_singleton. left.
  - by vm_compute.
Defined.

(** ** More on the cycle detector *)

Section CycleFacts.

Lemma tc_flip {A} (R : relation A) x y : tc (flip R) x y → tc R y x.
Proof.
  induction 1 as [x y Hxy|x y z Hxy _ IH]; [by apply tc_once|].
  eapply tc_r; eauto.
Qed.

Lemma flowArc_mono nodes nodes' edges edges' u v :
  (∀ i, i ∈ (id <$> nodes) → i ∈ (id <$> nodes')) →
  (∀ a b, (∃ e, e ∈ edges ∧ source e = a ∧ target e = b) →
          ∃ e, e ∈ edges' ∧ source e = a ∧ target e = b) →
  flowArc nodes edges u v → flowArc nodes' edges' u v.
Proof. intros Hn He (Hu & Hv & Harc). repeat split; auto. Qed.

Lemma HasCycle_mono nodes nodes' edges edges' :
  (∀ i, i ∈ (id <$> nodes) → i ∈ (id <$> nodes')) →
  (∀ a b, (∃ e, e ∈ edges ∧ source e = a ∧ target e = b) →
          ∃ e, e ∈ edges' ∧ source e = a ∧ target e = b) →
  HasCycle nodes edges → HasCycle nodes' edges'.
Proof.
  intros Hn He (c & Hc). exists c. eapply tc_mono; [|done].
  intros a b. by apply flowArc_mono.
Qed.

Lemma hasFlowCycles_true_iff rt nodes edges :
  OrdinaryKeys rt nodes edges →
  hasFlowCycles rt nodes edges = Some (Returned true) ↔ HasCycle nodes edges.
Proof.
  intros Hord.
  destruct (hasFlowCycles_decides rt nodes edges Hord) as (b & -> & Hb).
  rewrite <- Hb. split; congruence.
Qed.

Lemma hasFlowCycles_false_iff rt nodes edges :
  OrdinaryKeys rt nodes edges →
  hasFlowCycles rt nodes edges = Some (Returned false) ↔ ¬ HasCycle nodes edges.
Proof.
  intros Hord.
  destruct (hasFlowCycles_decides rt nodes edges Hord) as (b & -> & Hb).
  rewrite <- Hb. destruct b; split; try done; congruence.
Qed.

(** Walking edges backwards from a node id stays among the node ids. *)
Lemma backwards_in_nodes nodes edges x y :
  tc (flip (flowArc nodes edges)) x y → y ∈ (id <$> nodes).
Proof. induction 1 as [x y (Hy & _)|]; done. Qed.

(** In a flow graph without a cycle whose edges all leave known nodes, some
    node has no incoming edge. *)
Lemma acyclic_has_start nodes edges :
  nodes ≠ [] →
  (∀ e, e ∈ edges → source e ∈ (id <$> nodes)) →
  ¬ HasCycle nodes edges →
  ∃ n, n ∈ nodes ∧ NoIncoming edges n.
Proof.
  intros Hne Hsrc Hacyc.
  set (R := flip (flowArc nodes edges)).
  assert (Hdec : ∀ y, Decision (red R y)).
  { intros y.
    refine (cast_if (decide (y ∈ (id <$> nodes)
              ∧ Exists (λ e, target e = y ∧ source e ∈ (id <$> nodes)) edges))).
    - destruct a as [Hy (e & He & Ht & Hs)%Exists_exists].
      exists (source e). repeat split; eauto.
    - intros (z & Hz & Hy & e & He & Hs & Ht). apply n. split; [done|].
      apply Exists_exists. exists e. by subst. }
  destruct nodes as [|n0 rest]; [done|].
  assert (Hsn : sn R (id n0)).
  { apply tc_finite_sn.
    - intros x Hx. apply Hacyc. exists x. by apply tc_flip.
    - exists (id <$> n0 :: rest). intros y Hy. by eapply backwards_in_nodes. }
  destruct (@sn_wn _ R Hdec _ Hsn) as (y & Hreach & Hnf).
  assert (Hy : y ∈ (id <$> n0 :: rest)).
  { apply rtc_tc in Hreach as [<-|Ht]; [left|by eapply backwards_in_nodes]. }
  apply list_elem_of_fmap in Hy as (n & -> & Hn).
  exists n. split; [done|]. apply Forall_forall. intros e He Ht.
  apply Hnf. exists (source e). repeat split; eauto.
  apply list_elem_of_fmap. eauto.
Qed.

End CycleFacts.

(** X7. A call of [hasFlowCycles] always ends, by returning or by throwing
    a TypeError: each call of [hasCycle] marks an id not visited before, and
    only node ids, edge targets and their characters can be visited.  It
    returns a boolean when the keys are ordinary: no node is called
    [__proto__], and no edge endpoint outside the node ids is [__proto__] or
    names a method of [Object.prototype]. *)
Theorem hasFlowCycles_terminates rt nodes edges :
  is_Some (hasFlowCycles rt nodes edges)
  ∧ (OrdinaryKeys rt nodes edges →
     ∃ b, hasFlowCycles rt nodes edges = Some (Returned b)).
Proof.
  split; [|apply hasFlowCycles_returns].
  destruct (hasFlowCycles_ends rt nodes edges) as (r & ->). eauto.
Qed.

Lemma ordinary_two_nodes :
  OrdinaryKeys standardRuntime [textNode "A" None; textNode "B" None]
    [simpleEdge "A" "B"; simpleEdge "B" "A"].
Proof.
  split.
  - simpl. rewrite !elem_of_cons, elem_of_nil. by intros [?|[?|?]].
  - intros e He. simpl.
    rewrite !elem_of_cons, elem_of_nil in He. destruct He as [->|[->|[]]];
      simpl; split; left; rewrite !elem_of_cons; tauto.
Qed.

Lemma hasFlowCycles_terminates_witness :
  ∃ b, hasFlowCycles standardRuntime [textNode "A" None; textNode "B" None]
         [simpleEdge "A" "B"; simpleEdge "B" "A"] = Some (Returned b).
Proof.
  apply (proj2 (hasFlowCycles_terminates standardRuntime
                  [textNode "A" None; textNode "B" None]
                  [simpleEdge "A" "B"; simpleEdge "B" "A"])).
  exact ordinary_two_nodes.
Defined.

(** X8. On flows with ordinary keys the answer of [hasFlowCycles] depends
    only on the set of node ids and on the set of (source, target) pairs of
    the edges: not on the order of nodes or edges, on repeated edges, on
    edge ids or handles, nor on the node payloads. *)
Theorem hasFlowCycles_depends_on_graph_only rt nodes nodes' edges edges' :
  OrdinaryKeys rt nodes edges → OrdinaryKeys rt nodes' edges' →
  (∀ i, i ∈ (id <$> nodes) ↔ i ∈ (id <$> nodes')) →
  (∀ a b, (∃ e, e ∈ edges ∧ source e = a ∧ target e = b)
          ↔ ∃ e, e ∈ edges' ∧ source e = a ∧ target e = b) →
  hasFlowCycles rt nodes edges = hasFlowCycles rt nodes' edges'.
Proof.
  intros Hord Hord' Hn He.
  destruct (hasFlowCycles_decides rt nodes edges Hord) as (b & -> & Hb).
  destruct (hasFlowCycles_decides rt nodes' edges' Hord') as (b' & -> & Hb').
  do 2 f_equal. apply bool_eq_of_iff. rewrite Hb, Hb'.
  split; apply HasCycle_mono; intros; try apply Hn; try apply He; done.
Qed.

Lemma ordinary_shuffled :
  OrdinaryKeys standardRuntime
    [textNode "B" None; textNode "A" None; textNode "B" None]
    [mkEdge "x" "B" "A" (Some "source") None; simpleEdge "A" "B";
     simpleEdge "B" "A"].
Proof.
  split.
  - simpl. rewrite !elem_of_cons, elem_of_nil. by intros [?|[?|[?|?]]].
  - intros e He. simpl.
    rewrite !elem_of_cons, elem_of_nil in He. destruct He as [->|[->|[->|[]]]];
      simpl; split; left; rewrite !elem_of_cons; tauto.
Qed.

Lemma hasFlowCycles_depends_on_graph_only_witness :
  hasFlowCycles standardRuntime [textNode "A" None; textNode "B" None]
                [simpleEdge "A" "B"; simpleEdge "B" "A"]
  = hasFlowCycles standardRuntime
      [textNode "B" None; textNode "A" None; textNode "B" None]
      [mkEdge "x" "B" "A" (Some "source") None; simpleEdge "A" "B";
       simpleEdge "B" "A"].
Proof.
  apply hasFlowCycles_depends_on_graph_only.
  - exact ordinary_two_nodes.
  - exact ordinary_shuffled.
  - intros i. simpl. rewrite !elem_of_cons, !elem_of_nil. tauto.
  - intros a b. split; intros (e & He & <- & <-);
      rewrite !elem_of_cons, elem_of_nil in He;
      destruct He as [->|He]; repeat (destruct He as [->|He]); try done.
    + exists (simpleEdge "A" "B"). split; [|done]. right. left.
    + exists (simpleEdge "B" "A"). split; [|done]. right. right. left.
    + exists (simpleEdge "B" "A"). split; [|done]. right. left.
    + exists (simpleEdge "A" "B"). split; [|done]. left.
    + exists (simpleEdge "B" "A"). split; [|done]. right. left.
Defined.

(** X9. Adding nodes or edges never removes a cycle: once [hasFlowCycles]
    answers [true] for a flow, it answers [true] for every flow with
    ordinary keys that has at least those node ids and those edges. *)
Theorem hasFlowCycles_more_edges rt nodes nodes' edges edges' :
  OrdinaryKeys rt nodes' edges' →
  (∀ i, i ∈ (id <$> nodes) → i ∈ (id <$> nodes')) →
  (∀ e, e ∈ edges → e ∈ edges') →
  hasFlowCycles rt nodes edges = Some (Returned true) →
  hasFlowCycles rt nodes' edges' = Some (Returned true).
Proof.
  intros Hord Hn He Htrue. apply hasFlowCycles_true_iff; [done|].
  apply (HasCycle_mono nodes nodes' edges edges'); [done| |].
  - intros a b (e & Hin & Hs & Ht). eauto.
  - apply (hasFlowCycles_true_cycle rt); [|done].
    destruct Hord as [Hnp _]. intros Hin. by apply Hnp, Hn.
Qed.

Lemma ordinary_three_nodes :
  OrdinaryKeys standardRuntime
    [textNode "A" None; textNode "B" None; textNode "C" None]
    [simpleEdge "A" "B"; simpleEdge "B" "A"; simpleEdge "B" "C"].
Proof.
  split.
  - simpl. rewrite !elem_of_cons, elem_of_nil. by intros [?|[?|[?|?]]].
  - intros e He. simpl.
    rewrite !elem_of_cons, elem_of_nil in He. destruct He as [->|[->|[->|[]]]];
      simpl; split; left; rewrite !elem_of_cons; tauto.
Qed.

Lemma hasFlowCycles_more_edges_witness :
  hasFlowCycles standardRuntime
    [textNode "A" None; textNode "B" None; textNode "C" None]
    [simpleEdge "A" "B"; simpleEdge "B" "A"; simpleEdge "B" "C"]
  = Some (Returned true).
Proof.
  apply (hasFlowCycles_more_edges standardRuntime
           [textNode "A" None; textNode "B" None] _
           [simpleEdge "A" "B"; simpleEdge "B" "A"]).
  - exact ordinary_three_nodes.
  - intros i. simpl. rewrite !elem_of_cons, !elem_of_nil. tauto.
  - intros e. rewrite !elem_of_cons, !elem_of_nil. tauto.
  - by vm_compute.
Defined.

(** X10. A flow of more than one node that [validateFlow] accepts, whose
    edges all leave known nodes and in which [hasFlowCycles] finds no cycle,
    has exactly one node without an incoming edge: a single entry point. *)
Theorem acyclic_valid_flow_single_start rt nodes edges :
  1 < length nodes →
  (∀ e, e ∈ edges → source e ∈ (id <$> nodes)) →
  isValid (validateFlow nodes edges) = true →
  hasFlowCycles rt nodes edges = Some (Returned false) →
  countNodes (NoIncoming edges) nodes = 1.
Proof.
  intros Hlen Hsrc [?|(Hin & _ & _)]%validateFlow_valid_iff
    Hacyc%hasFlowCycles_false_acyclic; [lia|].
  destruct (acyclic_has_start nodes edges) as (n & Hn & Hstart); auto.
  { intros ->. simpl in Hlen. lia. }
  assert (0 < countNodes (NoIncoming edges) nodes); [|lia].
  apply countNodes_pos. eauto.
Qed.

Lemma acyclic_valid_flow_single_start_witness :
  countNodes (NoIncoming [simpleEdge "A" "B"; simpleEdge "B" "C"])
    [textNode "A" (Some "a"); textNode "B" (Some "b"); textNode "C" (Some "c")]
  = 1.
Proof.
  apply (acyclic_valid_flow_single_start standardRuntime).
  - simpl. lia.
  - intros e. simpl. rewrite !elem_of_cons, !elem_of_nil.
    intros [->| [->|[]]]; simpl; tauto.
  - by vm_compute.
  - by vm_compute.
Defined.

(** X25. An answer [false] of [hasFlowCycles] is always right: the graph on
    the node ids, with the edges between node ids as arcs, has no directed
    cycle.  On flows with ordinary keys the answer is exact: [true] is
    returned if and only if that graph has a directed cycle, and [false] if
    and only if it has none. *)
Theorem hasFlowCycles_iff_cycle_ordinary rt nodes edges :
  (hasFlowCycles rt nodes edges = Some (Returned false) →
   ¬ HasCycle nodes edges)
  ∧ (OrdinaryKeys rt nodes edges →
     (hasFlowCycles rt nodes edges = Some (Returned true)
      ↔ HasCycle nodes edges)
     ∧ (hasFlowCycles rt nodes edges = Some (Returned false)
        ↔ ¬ HasCycle nodes edges)).
Proof.
  split; [apply hasFlowCycles_false_acyclic|].
  intros Hord. split.
  - by apply hasFlowCycles_true_iff.
  - by apply hasFlowCycles_false_iff.
Qed.

Lemma hasFlowCycles_iff_cycle_ordinary_witness :
  HasCycle [textNode "A" None; textNode "B" None]
    [simpleEdge "A" "B"; simpleEdge "B" "A"].
Proof.
  apply (proj1 (proj2 (hasFlowCycles_iff_cycle_ordinary standardRuntime
                   [textNode "A" None; textNode "B" None]
                   [simpleEdge "A" "B"; simpleEdge "B" "A"])
                 ordinary_two_nodes)).
  by vm_compute.
Defined.

(** X26. On flows with ordinary keys, edges that reference unknown node ids
    do not change the answer: [hasFlowCycles] returns the same on the edges
    and on the sublist of the edges whose source and target are both node
    ids.  An edge whose source is unknown is not recorded; an edge whose
    source is a node id is recorded under it whatever its target is. *)
Theorem hasFlowCycles_knownEdges_ordinary rt nodes edges :
  OrdinaryKeys rt nodes edges →
  hasFlowCycles rt nodes edges = hasFlowCycles rt nodes (knownEdges nodes edges)
  ∧ ∃ adjacencyList,
      buildAdjacency rt (id <$> nodes) edges = Returned adjacencyList
      ∧ ∀ u, own adjacencyList !! u
             = if decide (u ∈ (id <$> nodes))
               then Some (target <$> filter (λ e, source e = u) edges)
               else None.
Proof.
  intros Hord. split.
  - destruct (hasFlowCycles_decides rt nodes edges Hord) as (b & -> & Hb).
    destruct (hasFlowCycles_decides rt nodes (knownEdges nodes edges)
                (OrdinaryKeys_knownEdges rt nodes edges Hord))
      as (b' & -> & Hb').
    rewrite HasCycle_knownEdges in Hb'. do 2 f_equal.
    apply bool_eq_of_iff. by rewrite Hb, Hb'.
  - destruct (ordinary_build_returns rt nodes edges Hord) as (d & Hd).
    exists d. split; [done|]. intros u.
    destruct (buildAdjacency_returned rt _ _ _ Hd) as [Hown _].
    rewrite Hown. destruct Hord as [Hnp _].
    repeat case_decide; try done.
    + tauto.
    + exfalso. apply H. split; [done|]. by intros ->.
Qed.

Lemma ordinary_unknown_target :
  OrdinaryKeys standardRuntime [textNode "A" None]
    [simpleEdge "A" "X"; simpleEdge "Y" "A"].
Proof.
  split.
  - simpl. rewrite !elem_of_cons, elem_of_nil. by intros [?|?].
  - intros e He. simpl.
    rewrite !elem_of_cons, elem_of_nil in He. destruct He as [->|[->|[]]];
      simpl; split;
      try (left; rewrite !elem_of_cons; tauto);
      right; intros [?|Hm]; try discriminate;
      simpl in Hm; rewrite !elem_of_cons, elem_of_nil in Hm;
      intuition discriminate.
Qed.

Lemma hasFlowCycles_knownEdges_ordinary_witness :
  hasFlowCycles standardRuntime [textNode "A" None]
    [simpleEdge "A" "X"; simpleEdge "Y" "A"]
  = hasFlowCycles standardRuntime [textNode "A" None]
      (knownEdges [textNode "A" None] [simpleEdge "A" "X"; simpleEdge "Y" "A"]).
Proof.
  apply (proj1 (hasFlowCycles_knownEdges_ordinary standardRuntime
                  [textNode "A" None]
                  [simpleEdge "A" "X"; simpleEdge "Y" "A"]
                  ordinary_unknown_target)).
Defined.

Lemma initAdjacency_no_arc rt nodeIds u v :
  ¬ arc rt (initAdjacency nodeIds) u v.
Proof.
  intros (l & Hl & Hv). unfold neighborsOf, getMember in Hl.
  rewrite initAdjacency_own, initAdjacency_prototype in Hl.
  assert (l = []) as ->; [|by apply elem_of_nil in Hv].
  destruct (decide (u ∈ nodeIds ∧ u ≠ "__proto__")); [congruence|].
  destruct (String.eqb u "__proto__").
  { destruct (decide ("__proto__" ∈ nodeIds)); congruence. }
  destruct (decide ("__proto__" ∈ nodeIds)).
  - destruct (String.eqb u "length"); [simpl in Hl; congruence|].
    cbn [arrayElement] in Hl.
    destruct (isMember u (arrayPrototypeMembers rt)
              || isMember u (objectPrototypeMembers rt)); congruence.
  - destruct (isMember u (objectPrototypeMembers rt)); congruence.
Qed.

Lemma initAdjacency_neighbors rt nodeIds u :
  u ∈ nodeIds → neighborsOf rt (initAdjacency nodeIds) u = Returned [].
Proof.
  intros Hu. unfold neighborsOf, getMember.
  rewrite initAdjacency_own, initAdjacency_prototype.
  destruct (decide (u = "__proto__")) as [->|Hne].
  - rewrite decide_False by (by intros [_ ?]). simpl.
    by rewrite decide_True.
  - by rewrite decide_True.
Qed.

Lemma hasFlowCycles_no_edges rt nodes :
  hasFlowCycles rt nodes [] = Some (Returned false).
Proof.
  unfold hasFlowCycles, runFlowCycles, buildAdjacency. cbn [addEdges].
  destruct (traversal_result rt (initAdjacency (id <$> nodes))
              (list_to_set (id <$> nodes))
              (λ u v H, False_ind _ (initAdjacency_no_arc rt _ u v H))
              (dfsFuel (id <$> nodes) []) (id <$> nodes))
    as (r & -> & Hit & Hres).
  - intros i Hi. by apply elem_of_list_to_set.
  - pose proof (size_list_to_set_le (id <$> nodes)). unfold dfsFuel. lia.
  - destruct Hit as (b & st & ->).
    { intros u Hu%elem_of_list_to_set. eauto using initAdjacency_neighbors. }
    destruct b; [|done].
    destruct (proj1 (Hres _ _ eq_refl) eq_refl) as (c & Hc).
    apply tc_head in Hc as (w & Hw & _). by apply initAdjacency_no_arc in Hw.
Qed.

(** X27. The four scenarios of the cycle detector, whatever the members of
    the built-in prototypes are: without edges [hasFlowCycles] returns
    [false] for every list of nodes; for two nodes A and B it returns [true]
    on the edges from A to B and from B to A, and [false] on the edge from A
    to B alone; for the node A with an edge to itself it returns [true]. *)
Theorem hasFlowCycles_scenarios rt :
  (∀ nodes, hasFlowCycles rt nodes [] = Some (Returned false))
  ∧ hasFlowCycles rt [textNode "A" None; textNode "B" None]
      [simpleEdge "A" "B"; simpleEdge "B" "A"] = Some (Returned true)
  ∧ hasFlowCycles rt [textNode "A" None; textNode "B" None]
      [simpleEdge "A" "B"] = Some (Returned false)
  ∧ hasFlowCycles rt [textNode "A" None] [simpleEdge "A" "A"]
    = Some (Returned true).
Proof.
  split; [apply hasFlowCycles_no_edges|].
  repeat split; by vm_compute.
Qed.

(** X28. An answer [true] of [hasFlowCycles] can be wrong when a node is
    called [__proto__].  For that single node and an edge from it to the
    unknown id 0, the assignment of the empty array replaces the prototype of
    the dictionary, the edge is pushed to that array, the key 0 then reads
    the array's first element, the string 0, and the one character of that
    string is 0 again: the call returns [true], and the flow graph has no
    cycle. *)
Theorem hasFlowCycles_true_without_cycle :
  hasFlowCycles standardRuntime [textNode "__proto__" None]
    [simpleEdge "__proto__" "0"] = Some (Returned true)
  ∧ ¬ HasCycle [textNode "__proto__" None] [simpleEdge "__proto__" "0"].
Proof.
  split; [by vm_compute|].
  intros (c & Hc). apply tc_head in Hc as (w & (_ & Hw & e & He & _ & <-) & _).
  apply list_elem_of_singleton in He as ->. simpl in Hw.
  by apply list_elem_of_singleton in Hw.
Qed.

(** ** [validateNodeData] *)

Section NodeDataFacts.

Lemma typeof_string v : typeof v = "string" ↔ ∃ s, v = JsString s.
Proof.
  destruct v; simpl; split; try discriminate; try (by intros [? [=]]); eauto.
Qed.

Lemma trim_nonempty l :
  negb (String.eqb (JS.trim l) "") = true ↔ allWhiteSpace l = false.
Proof.
  rewrite negb_true_iff, String.eqb_neq, trim_empty. apply not_true_iff_false.
Qed.

End NodeDataFacts.

(** X11. [validateNodeData] returns a truthy value exactly for an object
    whose [label] is a string with a character that is not white space and
    whose [type] is a string; arrays, primitives, [null] and [undefined] are
    never accepted, and no other property is looked at. *)
Theorem validateNodeData_accepts data :
  truthy (validateNodeData data) = true
  ↔ ∃ props l ty,
      data = JsObject props
      ∧ props !! "label" = Some (JsString l) ∧ allWhiteSpace l = false
      ∧ props !! "type" = Some (JsString ty).
Proof.
  unfold validateNodeData. split.
  - destruct (truthy data) eqn:Htr; simpl; [|congruence].
    destruct (String.eqb_spec (typeof (getProp data "label")) "string")
      as [Hl|]; simpl; [|discriminate].
    destruct (String.eqb_spec (typeof (getProp data "type")) "string")
      as [Hty|]; simpl; [|discriminate].
    apply typeof_string in Hl as (l & Hl), Hty as (ty & Hty).
    rewrite Hl. simpl. intros Hws%trim_nonempty.
    destruct data as [| | | | |items|props]; simpl in Hl, Hty; try discriminate.
    exists props, l, ty. split; [done|].
    destruct (props !! "label") as [vl|]; simpl in Hl; [|discriminate].
    destruct (props !! "type") as [vt|]; simpl in Hty; [|discriminate].
    by subst.
  - intros (props & l & ty & -> & Hl & Hws & Hty). simpl.
    rewrite Hl, Hty. simpl. by apply trim_nonempty.
Qed.

(** X12. On a falsy argument [validateNodeData] returns the argument itself
    ([null] for [null], [undefined] for [undefined], 0 for 0, the empty
    string for the empty string), not [false]; on a truthy argument it
    returns a boolean. *)
Theorem validateNodeData_result data :
  (truthy data = false → validateNodeData data = data)
  ∧ (truthy data = true → ∃ b, validateNodeData data = JsBoolean b).
Proof.
  unfold validateNodeData. split; intros ->; simpl; [done|].
  destruct (String.eqb _ "string"); simpl; [|eauto].
  destruct (String.eqb _ "string"); simpl; [|eauto].
  destruct (getProp data "label"); eauto.
Qed.

Lemma validateNodeData_result_witness :
  validateNodeData JsNull = JsNull
  ∧ ∃ b, validateNodeData (JsString "label") = JsBoolean b.
Proof.
  split.
  - by apply (proj1 (validateNodeData_result JsNull)).
  - by apply (proj2 (validateNodeData_result (JsString "label"))).
Defined.

(** X13. For the payload of a node, [validateNodeData] checks the label
    only: it accepts exactly when the label has a character that is not
    white space, whatever the message text is, so a node that
    [validateFlow] counts as having empty text can pass it. *)
Theorem validateNodeData_of_NodeData (d : NodeData) :
  validateNodeData (nodeDataValue d)
  = JsBoolean (negb (allWhiteSpace (label d))).
Proof.
  unfold validateNodeData, nodeDataValue. simpl.
  rewrite lookup_insert_eq. simpl.
  rewrite lookup_insert_ne by done. rewrite lookup_insert_eq. simpl.
  f_equal. apply bool_eq_of_iff.
  rewrite trim_nonempty, negb_true_iff. done.
Qed.

(** ** Identifiers *)

Section IdFacts.

(** A numeral followed by a character that is not a digit ends there. *)
Lemma digits_then_other (c : ascii) d1 d2 r1 r2 :
  isDigit c = false → allDigits d1 = true → allDigits d2 = true →
  d1 +:+ String c r1 = d2 +:+ String c r2 → d1 = d2 ∧ r1 = r2.
Proof.
  intros Hc. revert d2.
  induction d1 as [|c1 d1 IH]; intros [|c2 d2]; simpl; intros H1 H2 E.
  - by inversion E.
  - inversion E; subst. apply andb_prop in H2 as [H2 _]. congruence.
  - inversion E; subst. apply andb_prop in H1 as [H1 _]. congruence.
  - apply andb_prop in H1 as [_ H1]. apply andb_prop in H2 as [_ H2].
    inversion E; subst. destruct (IH d2 H1 H2) as [-> ->]; auto.
Qed.

Lemma append_assoc (a b c : string) : (a +:+ b) +:+ c = a +:+ (b +:+ c).
Proof.
  induction a as [|x a IH]; [done|].
  change (String x ((a +:+ b) +:+ c) = String x (a +:+ (b +:+ c))).
  by rewrite IH.
Qed.

Lemma substring_length_le n m s : String.length (String.substring n m s) ≤ m.
Proof.
  revert n m. induction s as [|c s IH]; intros [|n] [|m]; simpl; try lia.
  - specialize (IH 0 m). lia.
  - apply (IH n 0).
  - apply (IH n (S m)).
Qed.

End IdFacts.

(** X14. For the same two endpoints, [generateEdgeId] gives different ids at
    different milliseconds: equal ids mean equal clock readings. *)
Theorem generateEdgeId_clock_injective sourceId targetId now now' :
  generateEdgeId sourceId targetId now = generateEdgeId sourceId targetId now' →
  now = now'.
Proof.
  unfold generateEdgeId.
  intros E%append_inj_l%append_inj_l%append_inj_l%append_inj_l%append_inj_l.
  by apply numberToString_inj.
Qed.

Lemma generateEdgeId_clock_injective_witness : 41 = 41.
Proof.
  apply (generateEdgeId_clock_injective "A" "B"). reflexivity.
Defined.

(** X15. An edge id does not determine the endpoints: ids are joined with
    underscores, which node ids contain themselves, so at the same
    millisecond the pair (a_b, c) and the pair (a, b_c) get the same id. *)
Theorem generateEdgeId_collision a b c now :
  generateEdgeId (a +:+ "_" +:+ b) c now = generateEdgeId a (b +:+ "_" +:+ c) now.
Proof. unfold generateEdgeId. by rewrite !append_assoc. Qed.

(** X16. Two ids that [generateNodeId] makes for the same node type are
    equal exactly when the clock readings are equal and the random suffixes
    are; the suffix has at most nine characters. *)
Theorem generateNodeId_equal_iff nodeType now now' random36 random36' :
  (generateNodeId nodeType now random36 = generateNodeId nodeType now' random36'
   ↔ now = now' ∧ substr random36 2 9 = substr random36' 2 9)
  ∧ String.length (substr random36 2 9) ≤ 9.
Proof.
  split; [|apply substring_length_le].
  unfold generateNodeId. split.
  - intros E%append_inj_l%append_inj_l.
    apply (digits_then_other "_") in E as [E1 E2];
      auto using numberToString_digits.
    split; [by apply numberToString_inj|done].
  - by intros [-> ->].
Qed.

(** ** The editor: connections *)

Section ConnectFacts.

Variable rfAddEdge : CustomEdge → list CustomEdge → list CustomEdge.

(** All that is assumed of React Flow's [addEdge]: it returns the list as
    it is, or with the new edge at its end. *)
Hypothesis rfAddEdge_appends :
  ∀ e eds, rfAddEdge e eds = eds ∨ rfAddEdge e eds = (eds ++ [e])%list.

Lemma PortsSingleUse_snoc eds e :
  PortsSingleUse eds →
  source e ≠ target e →
  (¬ ∃ e', e' ∈ eds ∧ SamePort (source e) (sourceHandle e) e') →
  PortsSingleUse (eds ++ [e])%list.
Proof.
  intros [Hloop Huniq] Hne Hfree. split.
  - intros e' [He'| ->%list_elem_of_singleton]%elem_of_app; auto.
  - intros i j e1 e2 [H1|[Hi H1]]%lookup_app_Some [H2|[Hj H2]]%lookup_app_Some Hs Hh.
    + eauto.
    + apply list_lookup_singleton_Some in H2 as [_ <-].
      destruct Hfree. exists e1. split; [by eapply list_elem_of_lookup_2|done].
    + apply list_lookup_singleton_Some in H1 as [_ <-].
      destruct Hfree. exists e2. split; [by eapply list_elem_of_lookup_2|done].
    + apply list_lookup_singleton_Some in H1 as [H1 _].
      apply list_lookup_singleton_Some in H2 as [H2 _]. lia.
Qed.

Lemma onConnect_edges params now st :
  app_edges (onConnect rfAddEdge params now st) = app_edges st
  ∨ ∃ e, app_edges (onConnect rfAddEdge params now st) = (app_edges st ++ [e])%list
         ∧ source e ≠ target e
         ∧ (¬ ∃ e', e' ∈ app_edges st ∧ SamePort (source e) (sourceHandle e) e')
         ∧ sourceHandle e ≠ Some "" ∧ targetHandle e ≠ Some ""
         ∧ edge_id e = generateEdgeId (source e) (target e) now.
Proof.
  unfold onConnect.
  destruct (canConnect _ _ _ _ (app_edges st)) eqn:Hcan; simpl; [|by left].
  match goal with |- context [rfAddEdge ?e _] => set (newEdge := e) end.
  destruct (rfAddEdge_appends newEdge (app_edges st)) as [->| ->]; [by left|].
  right. exists newEdge. apply canConnect_true_iff in Hcan as [Hne Hfree].
  assert (Hh : ∀ h, orOption h None ≠ Some "").
  { intros [h|]; simpl; [|done]. destruct (String.eqb_spec h ""); congruence. }
  repeat split; auto; apply Hh.
Qed.

Lemma onConnect_step params now st :
  PortsSingleUse (app_edges st) →
  PortsSingleUse (app_edges (onConnect rfAddEdge params now st)).
Proof.
  intros Hinv.
  destruct (onConnect_edges params now st) as [->|(e & -> & Hne & Hfree & _)];
    [done|]. by apply PortsSingleUse_snoc.
Qed.

End ConnectFacts.

(** X17. The connection policy keeps output ports single-use: starting from
    an edge list without self-loops in which no two edges leave the same
    (source, sourceHandle) port, any sequence of connection attempts handled
    by [onConnect] ends in such an edge list (React Flow's [addEdge] being
    assumed to return the list unchanged or with the new edge appended). *)
Theorem onConnect_keeps_ports_single_use rfAddEdge attempts st :
  (∀ e eds, rfAddEdge e eds = eds ∨ rfAddEdge e eds = (eds ++ [e])%list) →
  PortsSingleUse (app_edges st) →
  PortsSingleUse (app_edges (connectAll rfAddEdge attempts st)).
Proof.
  intros Hrf. unfold connectAll. revert st.
  induction attempts as [|[params now] attempts IH]; intros st Hinv; [done|].
  simpl. apply IH. by apply onConnect_step.
Qed.

Lemma onConnect_keeps_ports_single_use_witness :
  PortsSingleUse
    (app_edges
       (connectAll (λ e eds, (eds ++ [e])%list)
          [(mkConnection (Some "A") (Some "B") (Some "source") (Some "target"), 1);
           (mkConnection (Some "A") (Some "C") (Some "source") (Some "target"), 2);
           (mkConnection (Some "B") (Some "B") None None, 3)]
          initialState)).
Proof.
  apply onConnect_keeps_ports_single_use.
  - intros e eds. by right.
  - split; simpl; [by intros e ?%elem_of_nil|]. intros i j e1 e2 H1. by destruct i.
Defined.

(** X18. Every edge that [onConnect] stores has an id made by
    [generateEdgeId] from its own endpoints, and handles that are absent or
    non-empty: an empty-string handle is stored as [undefined]. *)
Theorem onConnect_edges_wellformed rfAddEdge attempts :
  (∀ e eds, rfAddEdge e eds = eds ∨ rfAddEdge e eds = (eds ++ [e])%list) →
  ∀ e, e ∈ app_edges (connectAll rfAddEdge attempts initialState) →
    sourceHandle e ≠ Some "" ∧ targetHandle e ≠ Some ""
    ∧ ∃ now, edge_id e = generateEdgeId (source e) (target e) now.
Proof.
  intros Hrf.
  assert (Hgen : ∀ st,
    (∀ e, e ∈ app_edges st →
       sourceHandle e ≠ Some "" ∧ targetHandle e ≠ Some ""
       ∧ ∃ now, edge_id e = generateEdgeId (source e) (target e) now) →
    ∀ e, e ∈ app_edges (connectAll rfAddEdge attempts st) →
       sourceHandle e ≠ Some "" ∧ targetHandle e ≠ Some ""
       ∧ ∃ now, edge_id e = generateEdgeId (source e) (target e) now).
  { unfold connectAll.
    induction attempts as [|[params now] attempts IH]; intros st Hst; [done|].
    simpl. apply IH.
    destruct (onConnect_edges rfAddEdge Hrf params now st)
      as [->|(e' & -> & _ & _ & Hsh & Hth & Hid)]; [done|].
    intros e [He| ->%list_elem_of_singleton]%elem_of_app; eauto. }
  apply Hgen. by intros e ?%elem_of_nil.
Qed.

Lemma onConnect_edges_wellformed_witness :
  sourceHandle (mkEdge (generateEdgeId "A" "B" 7) "A" "B" None (Some "target"))
    ≠ Some ""
  ∧ targetHandle (mkEdge (generateEdgeId "A" "B" 7) "A" "B" None (Some "target"))
    ≠ Some ""
  ∧ ∃ now,
      edge_id (mkEdge (generateEdgeId "A" "B" 7) "A" "B" None (Some "target"))
      = generateEdgeId "A" "B" now.
Proof.
  apply (onConnect_edges_wellformed (λ e eds, (eds ++ [e])%list)
           [(mkConnection (Some "A") (Some "B") (Some "") (Some "target"), 7)]).
  - intros e eds. by right.
  - vm_compute. left.
Defined.

(** ** The editor: saving, editing, dropping *)

Section EditorFacts.

Lemma concat_nonempty sep (l : list string) :
  l ≠ [] → (∀ m, m ∈ l → m ≠ "") → String.concat sep l ≠ "".
Proof.
  destruct l as [|x l]; [done|]. intros _ Hall.
  assert (Hx : x ≠ "") by (apply Hall; left).
  destruct x as [|c x]; [done|]. destruct l; simpl; discriminate.
Qed.

Lemma expectedErrors_nonempty nodes edges m :
  m ∈ expectedErrors nodes edges → m ≠ "".
Proof.
  intros [[_ ->]|[[_ ->]|[_ ->]]]%elem_of_expectedErrors.
  - discriminate.
  - unfold emptyTextError.
    destruct (numberToString_head (countNodes EmptyText nodes))
      as (c & r & -> & _). discriminate.
  - unfold isolatedNodesError.
    destruct (numberToString_head (countNodes (Isolated edges) nodes))
      as (c & r & -> & _). discriminate.
Qed.

Lemma countNodes_fmap_le (P : CustomNode → Prop) `{!∀ n, Decision (P n)}
    (f : CustomNode → CustomNode) nodes :
  (∀ n, P (f n) → P n) → countNodes P (f <$> nodes) ≤ countNodes P nodes.
Proof.
  intros Hf. unfold countNodes. induction nodes as [|n nodes IH]; [done|].
  rewrite fmap_cons, !filter_cons. repeat case_decide; simpl; try lia.
  exfalso; auto.
Qed.

Lemma countNodes_fmap (P : CustomNode → Prop) `{!∀ n, Decision (P n)}
    (f : CustomNode → CustomNode) nodes :
  (∀ n, P (f n) ↔ P n) → countNodes P (f <$> nodes) = countNodes P nodes.
Proof.
  intros Hf. unfold countNodes. induction nodes as [|n nodes IH]; [done|].
  rewrite fmap_cons, !filter_cons.
  repeat case_decide; simpl; try lia; exfalso; naive_solver.
Qed.

Lemma countNodes_all (P : CustomNode → Prop) `{!∀ n, Decision (P n)} nodes :
  (∀ n, n ∈ nodes → P n) → countNodes P nodes = length nodes.
Proof.
  intros Hall. unfold countNodes. induction nodes as [|n nodes IH]; [done|].
  rewrite filter_cons, decide_True by (apply Hall; left).
  simpl. rewrite IH; [done|]. intros m Hm. apply Hall. by right.
Qed.

Lemma countNodes_none (P : CustomNode → Prop) `{!∀ n, Decision (P n)} nodes :
  (∀ n, n ∈ nodes → ¬ P n) → countNodes P nodes = 0.
Proof.
  intros Hall. unfold countNodes. induction nodes as [|n nodes IH]; [done|].
  rewrite filter_cons, decide_False by (apply Hall; left).
  apply IH. intros m Hm. apply Hall. by right.
Qed.

(** [validateFlow] reads the id and the text of a node, nothing else. *)
Lemma validateFlow_fmap (f : CustomNode → CustomNode) nodes edges :
  (∀ n, id (f n) = id n) → (∀ n, text (data (f n)) = text (data n)) →
  validateFlow (f <$> nodes) edges = validateFlow nodes edges.
Proof.
  intros Hid Htext. rewrite !validateFlow_unfold, length_fmap.
  assert (Hexp : expectedErrors (f <$> nodes) edges = expectedErrors nodes edges).
  { unfold expectedErrors.
    rewrite (countNodes_fmap (NoIncoming edges)), (countNodes_fmap EmptyText),
      (countNodes_fmap (Isolated edges)); [done|..]; intros n.
    - unfold Isolated, NoIncoming, NoOutgoing. by rewrite Hid.
    - unfold EmptyText. by rewrite Htext.
    - unfold NoIncoming. by rewrite Hid. }
  by rewrite Hexp.
Qed.

Lemma onDrop_textMessage pos now now' rnd st :
  app_edges (onDrop true (Some textMessage) pos now now' rnd st) = app_edges st
  ∧ ∃ n, app_nodes (onDrop true (Some textMessage) pos now now' rnd st)
         = (app_nodes st ++ [n])%list
         ∧ text (data n) = Some "Type your message here..."
         ∧ label (data n) = "Send Message".
Proof. split; [done|]. eexists. split; [reflexivity|]. by split. Qed.

Lemma dropAll_nodes drops st :
  app_edges (dropAll drops st) = app_edges st
  ∧ length (app_nodes (dropAll drops st)) = length (app_nodes st) + length drops
  ∧ ((∀ n, n ∈ app_nodes st → ¬ EmptyText n) →
     ∀ n, n ∈ app_nodes (dropAll drops st) → ¬ EmptyText n).
Proof.
  revert st.
  induction drops as [|[[[pos now] now'] rnd] drops IH]; intros st.
  { split; [done|]. split; [simpl; lia|done]. }
  destruct (IH (onDrop true (Some textMessage) pos now now' rnd st))
    as (He & Hl & Ht).
  destruct (onDrop_textMessage pos now now' rnd st) as (He1 & n1 & Hn1 & Htxt & _).
  split; [|split].
  - etrans; [exact He|exact He1].
  - etrans; [exact Hl|]. rewrite Hn1, length_app. simpl. lia.
  - intros Hst. apply Ht. rewrite Hn1.
    intros n [Hn| ->%list_elem_of_singleton]%elem_of_app; [by apply Hst|].
    unfold EmptyText. rewrite Htxt. by vm_compute.
Qed.

End EditorFacts.

(** X19. After [onSave] a banner is always shown.  When [validateFlow]
    accepts the flow, the message is "Flow saved successfully!" and its type
    is success; otherwise the message is the errors of the validation joined
    by single spaces, which is never the empty text, and its type is error.
    The nodes, the edges, the selected node and the panel are left as they
    were. *)
Theorem onSave_shows_banner st :
  bannerShown (onSave st) = true
  ∧ validationMessage (onSave st)
    = (if isValid (validateFlow (app_nodes st) (app_edges st))
       then "Flow saved successfully!"
       else String.concat " "
              (errors (validateFlow (app_nodes st) (app_edges st))))
  ∧ messageType (onSave st)
    = (if isValid (validateFlow (app_nodes st) (app_edges st))
       then messageSuccess else messageError)
  ∧ (messageType (onSave st) = messageSuccess
     ↔ isValid (validateFlow (app_nodes st) (app_edges st)) = true)
  ∧ (messageType (onSave st) = messageError
     ↔ isValid (validateFlow (app_nodes st) (app_edges st)) = false)
  ∧ app_nodes (onSave st) = app_nodes st
  ∧ app_edges (onSave st) = app_edges st
  ∧ selectedNode (onSave st) = selectedNode st
  ∧ panelType (onSave st) = panelType st.
Proof.
  unfold onSave, bannerShown.
  destruct (isValid (validateFlow (app_nodes st) (app_edges st))) eqn:Hvalid;
    simpl.
  { repeat split; done. }
  split; [|repeat split; done].
  apply negb_true_iff, String.eqb_neq.
  rewrite validateFlow_unfold in Hvalid |- *.
  case_decide; simpl in *; [done|].
  apply bool_decide_eq_false in Hvalid.
  apply concat_nonempty; [done|]. intros m. apply expectedErrors_nonempty.
Qed.

(** X20. Editing a node through [onUpdateNode] never touches the graph: the
    ids and positions of the nodes and the edges stay as they were, and so
    do the numbers of nodes without incoming edge and of isolated nodes, and
    the answer of [hasFlowCycles]. *)
Theorem onUpdateNode_keeps_graph rt nodeId patch st :
  id <$> app_nodes (onUpdateNode nodeId patch st) = id <$> app_nodes st
  ∧ position <$> app_nodes (onUpdateNode nodeId patch st)
    = position <$> app_nodes st
  ∧ app_edges (onUpdateNode nodeId patch st) = app_edges st
  ∧ countNodes (NoIncoming (app_edges st)) (app_nodes (onUpdateNode nodeId patch st))
    = countNodes (NoIncoming (app_edges st)) (app_nodes st)
  ∧ countNodes (Isolated (app_edges st)) (app_nodes (onUpdateNode nodeId patch st))
    = countNodes (Isolated (app_edges st)) (app_nodes st)
  ∧ hasFlowCycles rt (app_nodes (onUpdateNode nodeId patch st)) (app_edges st)
    = hasFlowCycles rt (app_nodes st) (app_edges st).
Proof.
  simpl.
  set (f := λ node : CustomNode,
         if String.eqb (id node) nodeId then patchNode patch node else node).
  assert (Hid : ∀ n, id (f n) = id n).
  { intros n. unfold f. by destruct (String.eqb (id n) nodeId). }
  assert (Hpos : ∀ n, position (f n) = position n).
  { intros n. unfold f. by destruct (String.eqb (id n) nodeId). }
  assert (Hids : id <$> (f <$> app_nodes st) = id <$> app_nodes st).
  { rewrite <- list_fmap_compose. apply list_fmap_ext. intros _ n _. apply Hid. }
  split; [done|]. split.
  { rewrite <- list_fmap_compose. apply list_fmap_ext. intros _ n _. apply Hpos. }
  split; [done|]. split; [|split].
  - apply countNodes_fmap. intros n. unfold NoIncoming. by rewrite Hid.
  - apply countNodes_fmap. intros n.
    unfold Isolated, NoIncoming, NoOutgoing. by rewrite Hid.
  - unfold hasFlowCycles, runFlowCycles. by rewrite Hids.
Qed.

(** X21. Typing a text in the settings panel keeps every node in its place
    in the list: the node at an index keeps its id, type, position, label
    and node type, and its text becomes the typed text when its id is the id
    of the selected node and stays as it was otherwise.  So every node with
    the id of the selected node has the typed text afterwards and no other
    node changes; the edges stay as they were; when the text has a character
    that is not white space, no more nodes count as having empty text than
    before. *)
Theorem handleTextChange_sets_text selected newText st :
  (∀ n, n ∈ app_nodes (handleTextChange selected newText st) →
        id n = id selected → text (data n) = Some newText)
  ∧ (∀ n, id n ≠ id selected →
          (n ∈ app_nodes (handleTextChange selected newText st)
           ↔ n ∈ app_nodes st))
  ∧ (allWhiteSpace newText = false →
     countNodes EmptyText (app_nodes (handleTextChange selected newText st))
     ≤ countNodes EmptyText (app_nodes st))
  ∧ length (app_nodes (handleTextChange selected newText st))
    = length (app_nodes st)
  ∧ (∀ i n, app_nodes st !! i = Some n →
       app_nodes (handleTextChange selected newText st) !! i
       = Some {| id := id n; type := type n; position := position n;
                 data := {| label := label (data n);
                            text := if decide (id n = id selected)
                                    then Some newText else text (data n);
                            data_type := data_type (data n) |} |})
  ∧ app_edges (handleTextChange selected newText st) = app_edges st.
Proof.
  unfold handleTextChange. simpl.
  set (patch := {| partial_label := None; partial_text := Some (Some newText);
                   partial_type := None |}).
  set (f := λ node : CustomNode,
         if String.eqb (id node) (id selected) then patchNode patch node
         else node).
  assert (Hid : ∀ n, id (f n) = id n).
  { intros n. unfold f. by destruct (String.eqb (id n) (id selected)). }
  split; [|split; [|split; [|split; [|split]]]].
  - intros n (m & -> & Hm)%list_elem_of_fmap Hsel. rewrite Hid in Hsel.
    unfold f. by rewrite (proj2 (String.eqb_eq _ _) Hsel).
  - intros n Hne. rewrite list_elem_of_fmap. split.
    + intros (m & -> & Hm). rewrite Hid in Hne. unfold f.
      by rewrite (proj2 (String.eqb_neq _ _) Hne).
    + intros Hn. exists n. split; [|done]. unfold f.
      by rewrite (proj2 (String.eqb_neq _ _) Hne).
  - intros Hws. apply countNodes_fmap_le. intros n. unfold f.
    destruct (String.eqb (id n) (id selected)); [|done].
    unfold EmptyText. simpl. intros Htrim%trim_empty. congruence.
  - apply length_fmap.
  - intros i n Hi. rewrite list_lookup_fmap, Hi. simpl. f_equal. unfold f.
    destruct (decide (id n = id selected)) as [Heq|Hne].
    + by rewrite (proj2 (String.eqb_eq _ _) Heq).
    + rewrite (proj2 (String.eqb_neq _ _) Hne). by destruct n as [? ? ? []].
  - done.
Qed.

Lemma handleTextChange_sets_text_witness :
  countNodes EmptyText
    (app_nodes (handleTextChange (textNode "B" None) "hello"
       (mkApp [textNode "A" (Some "hi"); textNode "B" None] [] None panelNodes
          "" messageNone)))
  ≤ countNodes EmptyText [textNode "A" (Some "hi"); textNode "B" None].
Proof.
  apply (proj1 (proj2 (proj2 (handleTextChange_sets_text (textNode "B" None)
    "hello"
    (mkApp [textNode "A" (Some "hi"); textNode "B" None] [] None panelNodes
       "" messageNone))))).
  reflexivity.
Defined.

(** X22. Editing a label never changes what [validateFlow] answers: the
    validation result after [handleLabelChange] is the one before. *)
Theorem handleLabelChange_keeps_validation selected newLabel st :
  validateFlow (app_nodes (handleLabelChange selected newLabel st))
               (app_edges (handleLabelChange selected newLabel st))
  = validateFlow (app_nodes st) (app_edges st).
Proof.
  unfold handleLabelChange. simpl. apply validateFlow_fmap; intros n;
    by destruct (String.eqb (id n) (id selected)).
Qed.

(** X23. Nodes dropped from the panel never have empty text and come
    without edges: after any number [k] of drops on the empty canvas,
    [validateFlow] accepts for [k] up to one, and otherwise reports exactly
    the starting-point error and the isolated-nodes error, both counting
    [k]. *)
Theorem drops_then_validate drops :
  length (app_nodes (dropAll drops initialState)) = length drops
  ∧ app_edges (dropAll drops initialState) = []
  ∧ validateFlow (app_nodes (dropAll drops initialState))
                 (app_edges (dropAll drops initialState))
    = if decide (length drops ≤ 1)
      then {| isValid := true; errors := [] |}
      else {| isValid := false;
              errors := [startingPointError (length drops);
                         isolatedNodesError (length drops)] |}.
Proof.
  destruct (dropAll_nodes drops initialState) as (He & Hl & Ht).
  simpl in He, Hl. specialize (Ht ltac:(by intros n ?%elem_of_nil)).
  split; [done|]. split; [done|].
  rewrite validateFlow_unfold, He, Hl. case_decide as Hlen; [done|].
  assert (Hexp : expectedErrors (app_nodes (dropAll drops initialState)) []
                 = [startingPointError (length drops);
                    isolatedNodesError (length drops)]).
  { unfold expectedErrors.
    rewrite (countNodes_all (NoIncoming [])), (countNodes_all (Isolated [])),
      (countNodes_none EmptyText), Hl; try done.
    - repeat case_decide; try lia. done.
    - intros n _. split; constructor.
    - intros n _. constructor. }
  by rewrite Hexp.
Qed.

(** X24. The side panel never renders nothing: whatever events the editor
    handles from its initial state, the panel type is the settings panel
    only while a node is selected. *)
Theorem side_panel_never_blank rfAddEdge events :
  sidePanel (run rfAddEdge events initialState) ≠ showsNothing.
Proof.
  assert (Hinv : ∀ st,
    (panelType st = panelSettings → is_Some (selectedNode st)) →
    panelType (run rfAddEdge events st) = panelSettings →
    is_Some (selectedNode (run rfAddEdge events st))).
  { unfold run. induction events as [|ev events IH]; intros st Hst; [done|].
    simpl. apply IH. destruct ev; simpl; try done; try (by eauto).
    - unfold onConnect. by destruct (canConnect _ _ _ _ _).
    - unfold onDrop. destruct payload; [|done]. by destruct (negb bounds).
    - intros Hp. destruct (Hst Hp) as [n ->].
      destruct (String.eqb (id n) nodeId); eauto.
    - unfold onSave. by destruct (isValid _). }
  unfold sidePanel.
  destruct (panelType (run rfAddEdge events initialState)) eqn:Hp; [done|].
  destruct (Hinv initialState) as [n ->]; done.
Qed.
